(** * MySQL-compatible AES: a shallow embedding of package [mysql_aes]

    The package encrypts with AES-128 in ECB mode over PKCS#7-padded data,
    after folding the caller's key into 16 bytes the way MySQL does, and
    offers hex-string wrappers and a per-user key deriver on top.

    Layout of this file:
    - bytes and the Go conversions the package uses;
    - models of the Go standard-library pieces the package calls
      ([crypto/aes], [encoding/hex], [strconv]);
    - the package itself, function by function;
    - the lemmas, and the properties of the specification. *)

From Stdlib Require Import List ZArith Lia Bool String Ascii.
From Stdlib.Strings Require Import Byte.
From stdpp Require Import base list.
From Equations Require Import Equations.
Import ListNotations.

#[local] Open Scope string_scope.
#[local] Open Scope list_scope.
#[local] Open Scope nat_scope.

(** ** Bytes *)

#[global] Instance byte_inhabited : Inhabited byte := populate x00.
#[global] Instance byte_eq_dec : EqDecision byte := Byte.byte_eq_dec.

(** The eight bits of a byte, least significant first. *)
Definition bits8 : Type :=
  (bool * (bool * (bool * (bool * (bool * (bool * (bool * bool)))))))%type.

Definition bits_xor (x y : bits8) : bits8 :=
  let '(a0, (a1, (a2, (a3, (a4, (a5, (a6, a7))))))) := x in
  let '(b0, (b1, (b2, (b3, (b4, (b5, (b6, b7))))))) := y in
  (xorb a0 b0, (xorb a1 b1, (xorb a2 b2, (xorb a3 b3,
  (xorb a4 b4, (xorb a5 b5, (xorb a6 b6, xorb a7 b7))))))).

(** Go's [^] on two bytes. *)
Definition bxor (a b : byte) : byte :=
  Byte.of_bits (bits_xor (Byte.to_bits a) (Byte.to_bits b)).

Definition xor4 (a b c d : byte) : byte := bxor (bxor (bxor a b) c) d.

(** The 256 bytes in increasing order. *)
Definition all_bytes : list byte :=
  Eval vm_compute in omap Byte.of_nat (seq 0 256).

(** Go's conversion [byte(n)] of an [int]: the low eight bits. *)
Definition byte_of_Z (n : Z) : byte :=
  default x00 (Byte.of_N (Z.to_N (n mod 256))).

(** Go's conversion [int(b)] of a byte. *)
Definition Z_of_byte (b : byte) : Z := Z.of_N (Byte.to_N b).

(** [len] of a slice, as a Go [int]. *)
Definition len (s : list byte) : Z := Z.of_nat (length s).

(** ** Errors and results

    A Go [error] is a value of some dynamic type.  The ones that can reach a
    caller of this package are the two error types of the standard library
    it calls and the errors it builds itself with [fmt.Errorf], which either
    carry a message only or wrap another error through the [%w] verb. *)

Inductive error : Type :=
| KeySizeError (k : nat)               (* crypto/aes: invalid key size *)
| ErrLength                            (* encoding/hex: odd length hex string *)
| InvalidByteError (b : byte)          (* encoding/hex: invalid byte *)
| Errorf (format : string)                     (* fmt.Errorf(format) *)
| ErrorfW (format : string) (wrapped : error).  (* fmt.Errorf(format, err) *)

(** The outcome of a call that returns [(T, error)]: a value, an error, or
    a run-time panic (an index or slice out of range, a division by zero). *)
Inductive result (A : Type) : Type :=
| Ok (a : A)
| Err (e : error)
| Panic.
Arguments Ok {A} a.
Arguments Err {A} e.
Arguments Panic {A}.

(** ** Model of [crypto/aes]

    The block cipher is the standard library's, not this package's.  It is
    modelled from the algorithm it implements, FIPS-197: the state is four
    columns of four bytes, [sbox0] and [sbox1] are the S-box and its
    inverse, and the key schedule covers the three key sizes [NewCipher]
    accepts.  The model is checked against the FIPS-197 example vectors
    below ([AESFacts.fips197_C1] and following). *)

Module AES.

Definition BlockSize : nat := 16.

(** Multiplication by [x] in GF(2^8) modulo [x^8 + x^4 + x^3 + x + 1]:
    shift left, and xor [0x1b] in when the top bit falls off. *)
Definition xtime (a : byte) : byte :=
  let '(a0, (a1, (a2, (a3, (a4, (a5, (a6, a7))))))) := Byte.to_bits a in
  Byte.of_bits (a7, (xorb a0 a7, (a1, (xorb a2 a7, (xorb a3 a7, (a4, (a5, a6))))))).

Definition mul2 (a : byte) : byte := xtime a.
Definition mul3 (a : byte) : byte := bxor (xtime a) a.
Definition mul9 (a : byte) : byte := bxor (xtime (xtime (xtime a))) a.
Definition mul11 (a : byte) : byte :=
  bxor (bxor (xtime (xtime (xtime a))) (xtime a)) a.
Definition mul13 (a : byte) : byte :=
  bxor (bxor (xtime (xtime (xtime a))) (xtime (xtime a))) a.
Definition mul14 (a : byte) : byte :=
  bxor (bxor (xtime (xtime (xtime a))) (xtime (xtime a))) (xtime a).

Fixpoint gmul_bits (bs : list bool) (a : byte) : byte :=
  match bs with
  | [] => x00
  | b :: bs' => bxor (if b then a else x00) (gmul_bits bs' (xtime a))
  end.

(** The product of two field elements. *)
Definition gmul (a b : byte) : byte :=
  let '(b0, (b1, (b2, (b3, (b4, (b5, (b6, b7))))))) := Byte.to_bits b in
  gmul_bits [b0; b1; b2; b3; b4; b5; b6; b7] a.

(** The multiplicative inverse, [a^254] (and 0 for 0). *)
Definition ginv (a : byte) : byte :=
  let a2 := gmul a a in let a4 := gmul a2 a2 in let a8 := gmul a4 a4 in
  let a16 := gmul a8 a8 in let a32 := gmul a16 a16 in
  let a64 := gmul a32 a32 in let a128 := gmul a64 a64 in
  gmul a2 (gmul a4 (gmul a8 (gmul a16 (gmul a32 (gmul a64 a128))))).

Definition rotl1 (a : byte) : byte :=
  let '(a0, (a1, (a2, (a3, (a4, (a5, (a6, a7))))))) := Byte.to_bits a in
  Byte.of_bits (a7, (a0, (a1, (a2, (a3, (a4, (a5, a6))))))).

(** The affine map of the S-box. *)
Definition affine (b : byte) : byte :=
  let r1 := rotl1 b in let r2 := rotl1 r1 in
  let r3 := rotl1 r2 in let r4 := rotl1 r3 in
  bxor (bxor (bxor (bxor (bxor b r1) r2) r3) r4) x63.

(** The forward S-box table. *)
Definition sbox0 : list byte :=
  Eval vm_compute in map (fun b => affine (ginv b)) all_bytes.

Definition invert_table (t : list byte) : list byte :=
  map (fun y =>
         default x00
           (find (fun x => bool_decide (t !!! Byte.to_nat x = y)) all_bytes))
      all_bytes.

(** The inverse S-box table. *)
Definition sbox1 : list byte := Eval vm_compute in invert_table sbox0.

Definition sbox (b : byte) : byte := sbox0 !!! Byte.to_nat b.
Definition inv_sbox (b : byte) : byte := sbox1 !!! Byte.to_nat b.

(** A column of the state, and a word of the key schedule. *)
Inductive word : Type := W (a b c d : byte).

(** The state: columns 0 to 3. *)
Inductive state : Type := St (c0 c1 c2 c3 : word).

#[global] Instance word_inhabited : Inhabited word := populate (W x00 x00 x00 x00).

Definition xorWord (x y : word) : word :=
  let '(W a b c d) := x in
  let '(W a' b' c' d') := y in
  W (bxor a a') (bxor b b') (bxor c c') (bxor d d').

Definition subWord (x : word) : word :=
  let '(W a b c d) := x in W (sbox a) (sbox b) (sbox c) (sbox d).

Definition invSubWord (x : word) : word :=
  let '(W a b c d) := x in W (inv_sbox a) (inv_sbox b) (inv_sbox c) (inv_sbox d).

Definition rotWord (x : word) : word :=
  let '(W a b c d) := x in W b c d a.

Definition mixColumn (x : word) : word :=
  let '(W a b c d) := x in
  W (xor4 (mul2 a) (mul3 b) c d)
    (xor4 a (mul2 b) (mul3 c) d)
    (xor4 a b (mul2 c) (mul3 d))
    (xor4 (mul3 a) b c (mul2 d)).

Definition invMixColumn (x : word) : word :=
  let '(W a b c d) := x in
  W (xor4 (mul14 a) (mul11 b) (mul13 c) (mul9 d))
    (xor4 (mul9 a) (mul14 b) (mul11 c) (mul13 d))
    (xor4 (mul13 a) (mul9 b) (mul14 c) (mul11 d))
    (xor4 (mul11 a) (mul13 b) (mul9 c) (mul14 d)).

Definition mapState (f : word -> word) (s : state) : state :=
  let '(St c0 c1 c2 c3) := s in St (f c0) (f c1) (f c2) (f c3).

Definition subBytes : state -> state := mapState subWord.
Definition invSubBytes : state -> state := mapState invSubWord.
Definition mixColumns : state -> state := mapState mixColumn.
Definition invMixColumns : state -> state := mapState invMixColumn.

(** Row [r] of the state is rotated left by [r] columns. *)
Definition shiftRows (s : state) : state :=
  let '(St (W a0 a1 a2 a3) (W b0 b1 b2 b3) (W c0 c1 c2 c3) (W d0 d1 d2 d3)) := s in
  St (W a0 b1 c2 d3) (W b0 c1 d2 a3) (W c0 d1 a2 b3) (W d0 a1 b2 c3).

Definition invShiftRows (s : state) : state :=
  let '(St (W a0 a1 a2 a3) (W b0 b1 b2 b3) (W c0 c1 c2 c3) (W d0 d1 d2 d3)) := s in
  St (W a0 d1 c2 b3) (W b0 a1 d2 c3) (W c0 b1 a2 d3) (W d0 c1 b2 a3).

Definition addRoundKey (k s : state) : state :=
  let '(St k0 k1 k2 k3) := k in
  let '(St c0 c1 c2 c3) := s in
  St (xorWord c0 k0) (xorWord c1 k1) (xorWord c2 k2) (xorWord c3 k3).

(** *** Key schedule *)

Fixpoint keyWords (key : list byte) : list word :=
  match key with
  | a :: b :: c :: d :: rest => W a b c d :: keyWords rest
  | _ => []
  end.

Definition rcon (j : nat) : word := W (Nat.iter (j - 1) xtime x01) x00 x00 x00.

(** Word [i] of the schedule from the [i] words before it; [nk] is the key
    length in words. *)
Definition nextWord (nk i : nat) (ws : list word) : word :=
  let temp := ws !!! (i - 1) in
  let temp' :=
    if decide (i mod nk = 0) then xorWord (subWord (rotWord temp)) (rcon (i / nk))
    else if decide (6 < nk ∧ i mod nk = 4) then subWord temp
    else temp in
  xorWord (ws !!! (i - nk)) temp'.

Fixpoint expandFrom (n nk i : nat) (ws : list word) : list word :=
  match n with
  | 0 => ws
  | S n' => expandFrom n' nk (S i) (ws ++ [nextWord nk i ws])
  end.

(** [4 * (nr + 1)] words, where the number of rounds [nr] is [nk + 6]. *)
Definition expandKey (key : list byte) : list word :=
  let nk := length key / 4 in
  expandFrom (4 * (nk + 7) - nk) nk nk (keyWords key).

Fixpoint roundKeys (ws : list word) : list state :=
  match ws with
  | a :: b :: c :: d :: rest => St a b c d :: roundKeys rest
  | _ => []
  end.

(** *** Cipher and inverse cipher *)

(** The rounds after the initial key addition; the last one has no
    [mixColumns]. *)
Fixpoint rounds (ks : list state) (s : state) : state :=
  match ks with
  | [] => s
  | [k] => addRoundKey k (shiftRows (subBytes s))
  | k :: ks' => rounds ks' (addRoundKey k (mixColumns (shiftRows (subBytes s))))
  end.

Fixpoint invRounds (ks : list state) (s : state) : state :=
  match ks with
  | [] => s
  | [k] => invSubBytes (invShiftRows (addRoundKey k s))
  | k :: ks' =>
      invSubBytes (invShiftRows (invMixColumns (addRoundKey k (invRounds ks' s))))
  end.

Definition encryptState (ks : list state) (s : state) : state :=
  match ks with
  | [] => s
  | k0 :: ks' => rounds ks' (addRoundKey k0 s)
  end.

Definition decryptState (ks : list state) (s : state) : state :=
  match ks with
  | [] => s
  | k0 :: ks' => addRoundKey k0 (invRounds ks' s)
  end.

(** The first 16 bytes of [src], column by column; [None] when [src] is
    shorter than a block. *)
Definition stateOfBytes (src : list byte) : option state :=
  match src with
  | a0 :: a1 :: a2 :: a3 :: b0 :: b1 :: b2 :: b3
      :: c0 :: c1 :: c2 :: c3 :: d0 :: d1 :: d2 :: d3 :: _ =>
      Some (St (W a0 a1 a2 a3) (W b0 b1 b2 b3) (W c0 c1 c2 c3) (W d0 d1 d2 d3))
  | _ => None
  end.

Definition bytesOfState (s : state) : list byte :=
  let '(St (W a0 a1 a2 a3) (W b0 b1 b2 b3) (W c0 c1 c2 c3) (W d0 d1 d2 d3)) := s in
  [a0; a1; a2; a3; b0; b1; b2; b3; c0; c1; c2; c3; d0; d1; d2; d3].

(** A [cipher.Block] made by [NewCipher]: its expanded key. *)
Record Block : Type := { schedule : list state }.

(** [aes.NewCipher]: the key must be 16, 24 or 32 bytes long. *)
Definition NewCipher (key : list byte) : result Block :=
  let k := length key in
  if decide (k = 16 ∨ k = 24 ∨ k = 32)
  then Ok {| schedule := roundKeys (expandKey key) |}
  else Err (KeySizeError k).

(** [Block.Encrypt] on the first block of [src]; the 16 bytes it writes to
    the destination.  [None] is the panic "input not full block". *)
Definition Encrypt (c : Block) (src : list byte) : option (list byte) :=
  s ← stateOfBytes src; Some (bytesOfState (encryptState (schedule c) s)).

(** [Block.Decrypt], likewise. *)
Definition Decrypt (c : Block) (src : list byte) : option (list byte) :=
  s ← stateOfBytes src; Some (bytesOfState (decryptState (schedule c) s)).

End AES.

(** ** Model of [encoding/hex] *)

Module Hex.

Definition hextable : list byte := list_byte_of_string "0123456789abcdef".

(** [hex.Encode]: two digits per byte, high nibble first. *)
Definition Encode (src : list byte) : list byte :=
  flat_map (fun v =>
              let n := Byte.to_nat v in
              [hextable !!! (n / 16); hextable !!! (n mod 16)])
           src.

Definition EncodeToString (src : list byte) : string :=
  string_of_list_byte (Encode src).

(** The value of a hex digit of either case; [None] for any other byte. *)
Definition fromHexChar (c : byte) : option nat :=
  let n := Byte.to_nat c in
  if decide (48 <= n <= 57) then Some (n - 48)          (* '0'..'9' *)
  else if decide (97 <= n <= 102) then Some (n - 97 + 10)  (* 'a'..'f' *)
  else if decide (65 <= n <= 70) then Some (n - 65 + 10)   (* 'A'..'F' *)
  else None.

(** [hex.Decode]: the bytes decoded before the first problem, and the
    problem if any.  An invalid digit is reported before an odd length. *)
Fixpoint Decode (src : list byte) : list byte * option error :=
  match src with
  | [] => ([], None)
  | [p] =>
      match fromHexChar p with
      | None => ([], Some (InvalidByteError p))
      | Some _ => ([], Some ErrLength)
      end
  | p :: q :: rest =>
      match fromHexChar p, fromHexChar q with
      | None, _ => ([], Some (InvalidByteError p))
      | Some _, None => ([], Some (InvalidByteError q))
      | Some a, Some b =>
          let '(out, err) := Decode rest in
          (default x00 (Byte.of_nat (a * 16 + b)) :: out, err)
      end
  end.

Definition DecodeString (s : string) : list byte * option error :=
  Decode (list_byte_of_string s).

End Hex.

(** ** Model of [strconv] *)

Module strconv.

Definition digit (d : N) : ascii := ascii_of_N (48 + d).

(** The decimal digits of [u] in front of [buf], least significant digit
    produced first. *)
Equations? formatBits (u : N) (buf : string) : string
  by wf (N.to_nat (N.log2 u)) lt :=
  formatBits u buf with decide (10 <= u)%N => {
    | left _ := formatBits (u / 10) (String (digit (u mod 10)) buf);
    | right _ := String (digit u) buf }.
Proof.
  assert (N.log2 (u / 10) < N.log2 u)%N; [|lia].
  apply N.le_lt_trans with (N.log2 (u / 2)).
  - apply N.log2_le_mono, N.div_le_compat_l. lia.
  - rewrite <- N.div2_div, N.div2_spec, N.log2_shiftr.
    assert (0 < N.log2 u)%N by (apply N.log2_pos; lia). lia.
Qed.

(** [strconv.FormatUint(v, 10)]. *)
Definition FormatUint (v : N) : string := formatBits v "".

(** [strconv.FormatInt(v, 10)]. *)
Definition FormatInt (v : Z) : string :=
  if decide (v < 0)%Z then String "-" (formatBits (Z.to_N (- v)) "")
  else formatBits (Z.to_N v) "".

(** [strconv.Itoa]. *)
Definition Itoa (v : Z) : string := FormatInt v.

End strconv.

(** ** Package [mysql_aes] *)

(** [AESKeyLen]: the AES key length in bits. *)
Definition AESKeyLen : nat := 128.

(** [BlockSize]: the AES block size in bytes. *)
Definition BlockSize : nat := AES.BlockSize.

(** [make([]byte, n)]. *)
Definition make (n : nat) : list byte := replicate n x00.

(** The built-in [copy(dst, src)]: the first [min(len(dst), len(src))]
    elements of [dst] are overwritten; the result is [dst] afterwards. *)
Definition copy (dst src : list byte) : list byte :=
  take (length dst) src ++ drop (length src) dst.

(** The slice expression [s[i:j]] of a slice whose capacity is its length;
    [None] is the panic "slice bounds out of range". *)
Definition slice (s : list byte) (i j : nat) : option (list byte) :=
  if decide (i <= j <= length s) then Some (take (j - i) (drop i s)) else None.

(** What [dst] holds after a callee has written [out] to [dst[i:]]. *)
Definition write (dst : list byte) (i : nat) (out : list byte) : list byte :=
  take i dst ++ out ++ drop (i + length out) dst.

(** *** [aesKey] *)

Definition keyLen : nat := AESKeyLen / 8.

(** The inner loop of [aesKey]:
    [for j := 0; j < keyLen && i < len(key); j, i = j+1, i+1 { k[j] ^= key[i] }],
    entered at [j] and [i]; it returns [k] and the value of [i] at exit. *)
Equations? xorWrapInner (key k : list byte) (j i : nat) : list byte * nat
  by wf (keyLen - j) lt :=
  xorWrapInner key k j i with decide (j < keyLen ∧ i < length key) => {
    | left _ :=
        xorWrapInner key (<[j := bxor (k !!! j) (key !!! i)]> k) (j + 1) (i + 1);
    | right _ := (k, i) }.
Proof. lia. Qed.

(** The outer loop of [aesKey]: [for i := keyLen; i < len(key); { ... }],
    entered at [i]. *)
Equations? xorWrap (key k : list byte) (i : nat) : list byte
  by wf (length key - i) lt :=
  xorWrap key k i with decide (i < length key) => {
    | left _ :=
        xorWrap key (xorWrapInner key k 0 i).1 (xorWrapInner key k 0 i).2;
    | right _ := k }.
Proof.
  enough (i < (xorWrapInner key k 0 i).2) by lia.
  assert (Hmono : forall key k j i, i <= (xorWrapInner key k j i).2).
  { clear. intros key k j i. funelim (xorWrapInner key k j i); simpl; [|lia].
    etransitivity; [|eassumption]. lia. }
  simp xorWrapInner.
  destruct (decide (0 < keyLen ∧ i < length key)) as [Hy|Hn]; simpl.
  - specialize (Hmono key (<[0:=bxor (k !!! 0) (key !!! i)]> k) 1 (i + 1)). lia.
  - exfalso. apply Hn. unfold keyLen, AESKeyLen. simpl. lia.
Qed.

(** [aesKey] processes the key to match MySQL's key handling: keys longer
    than 16 bytes are wrapped back into the 16-byte array with XOR. *)
Definition aesKey (key : list byte) : list byte :=
  if decide (length key = keyLen) then key
  else
    let k := make keyLen in
    let k := copy k key in
    xorWrap key k keyLen.

(** *** PKCS#7 *)

(** [pkcs7Pad].  [None] is a panic: the remainder by a zero [blockSize], or
    [make] with the negative length a negative [blockSize] leads to. *)
Definition pkcs7Pad (data : list byte) (blockSize : Z) : option (list byte) :=
  if decide (blockSize <= 0)%Z then None
  else
    let padding := (blockSize - Z.rem (len data) blockSize)%Z in
    let padText := replicate (Z.to_nat padding) (byte_of_Z padding) in
    Some (data ++ padText).

(** The verification loop of [pkcs7Unpad], entered at [i]: [true] when it
    runs to its end, [false] when it returns the error. *)
Equations? verifyPadding (data : list byte) (padding : Z) (i : nat) : bool
  by wf (length data - i) lt :=
  verifyPadding data padding i with decide (i < length data) => {
    | left _ :=
        if decide (data !!! i ≠ byte_of_Z padding) then false
        else verifyPadding data padding (i + 1);
    | right _ := true }.
Proof. lia. Qed.

(** [pkcs7Unpad]. *)
Definition pkcs7Unpad (data : list byte) : result (list byte) :=
  if decide (length data = 0) then Err (Errorf "data is empty")
  else
    let padding := Z_of_byte (data !!! (length data - 1)) in
    if decide (padding = 0 ∨ padding > len data)%Z
    then Err (Errorf "invalid padding")
    else if verifyPadding data padding (Z.to_nat (len data - padding))
    then Ok (take (Z.to_nat (len data - padding)) data)
    else Err (Errorf "invalid padding").

(** *** ECB *)

(** The block loop shared by [Encrypt] and [Decrypt]:
    [for i := 0; i < len(src); i += BlockSize { crypt(dst[i:i+BlockSize], src[i:i+BlockSize]) }],
    entered at [i]; [crypt] is the cipher's [Encrypt] or [Decrypt].  The
    result is [dst] after the loop, or [None] when a slice expression or the
    cipher panics. *)
Equations? cryptBlocks (crypt : list byte -> option (list byte))
    (src dst : list byte) (i : nat) : option (list byte)
  by wf (length src - i) lt :=
  cryptBlocks crypt src dst i with decide (i < length src) => {
    | right _ := Some dst;
    | left _ :=
        match slice dst i (i + BlockSize), slice src i (i + BlockSize) with
        | Some _, Some s =>
            match crypt s with
            | Some out => cryptBlocks crypt src (write dst i out) (i + BlockSize)
            | None => None
            end
        | _, _ => None
        end }.
Proof. unfold BlockSize, AES.BlockSize. lia. Qed.

(** [Encrypt] encrypts plaintext using AES-ECB mode. *)
Definition Encrypt (plaintext key : list byte) : result (list byte) :=
  if decide (length plaintext = 0) then Err (Errorf "plaintext cannot be empty")
  else if decide (length key = 0) then Err (Errorf "key cannot be empty")
  else
    let processedKey := aesKey key in
    match AES.NewCipher processedKey with
    | Err err => Err (ErrorfW "failed to create cipher: %w" err)
    | Panic => Panic
    | Ok block =>
        match pkcs7Pad plaintext (Z.of_nat BlockSize) with
        | None => Panic
        | Some paddedText =>
            let ciphertext := make (length paddedText) in
            match cryptBlocks (AES.Encrypt block) paddedText ciphertext 0 with
            | None => Panic
            | Some ciphertext => Ok ciphertext
            end
        end
    end.

(** [Decrypt] decrypts ciphertext using AES-ECB mode. *)
Definition Decrypt (ciphertext key : list byte) : result (list byte) :=
  if decide (length ciphertext = 0) then Err (Errorf "ciphertext cannot be empty")
  else if decide (length key = 0) then Err (Errorf "key cannot be empty")
  else if decide (length ciphertext mod BlockSize ≠ 0)
  then Err (Errorf "ciphertext length must be multiple of block size")
  else
    let processedKey := aesKey key in
    match AES.NewCipher processedKey with
    | Err err => Err (ErrorfW "failed to create cipher: %w" err)
    | Panic => Panic
    | Ok block =>
        let plaintext := make (length ciphertext) in
        match cryptBlocks (AES.Decrypt block) ciphertext plaintext 0 with
        | None => Panic
        | Some plaintext =>
            match pkcs7Unpad plaintext with
            | Err err => Err (ErrorfW "failed to remove padding: %w" err)
            | Panic => Panic
            | Ok unpaddedText => Ok unpaddedText
            end
        end
    end.

(** [EncryptString] encrypts a string and returns the result as a hex
    string. *)
Definition EncryptString (plaintext key : string) : result string :=
  match Encrypt (list_byte_of_string plaintext) (list_byte_of_string key) with
  | Err err => Err err
  | Panic => Panic
  | Ok encrypted => Ok (Hex.EncodeToString encrypted)
  end.

(** [DecryptString] decrypts a hex string and returns the result as a
    string. *)
Definition DecryptString (ciphertextHex key : string) : result string :=
  match Hex.DecodeString ciphertextHex with
  | (_, Some err) => Err (ErrorfW "invalid hex string: %w" err)
  | (ciphertext, None) =>
      match Decrypt ciphertext (list_byte_of_string key) with
      | Err err => Err err
      | Panic => Panic
      | Ok decrypted => Ok (string_of_list_byte decrypted)
      end
  end.

(** *** [UserKeyDeriver] *)

Record UserKeyDeriver : Type := NewUserKeyDeriver {
  baseKey : string;
  masterSalt : string
}.

(** The [userID interface{}] argument by dynamic type, as the type switch of
    [DeriveUserKey] sees it.  [uint] and [int] are 64 bits wide.  A value of
    any other type is given by what [fmt.Sprintf("%v", userID)] prints for
    it. *)
Inductive userID : Type :=
| ID_uint (v : N)
| ID_uint64 (v : N)
| ID_int (v : Z)
| ID_int64 (v : Z)
| ID_string (v : string)
| ID_other (printed : string).

(** The [userIDStr] the type switch computes. *)
Definition userIDStr (id : userID) : string :=
  match id with
  | ID_uint v => strconv.FormatUint v
  | ID_uint64 v => strconv.FormatUint v
  | ID_int v => strconv.Itoa v
  | ID_int64 v => strconv.FormatInt v
  | ID_string v => v
  | ID_other printed => printed
  end.

(** [DeriveUserKey]: [baseKey + userID + ":" + masterSalt]. *)
Definition DeriveUserKey (ukd : UserKeyDeriver) (id : userID) : string :=
  (baseKey ukd ++ userIDStr id ++ ":" ++ masterSalt ukd)%string.

(** [EncryptForUser] encrypts data for a specific user using a derived
    key. *)
Definition EncryptForUser (ukd : UserKeyDeriver) (plaintext : string)
    (id : userID) : result string :=
  let userKey := DeriveUserKey ukd id in
  EncryptString plaintext userKey.

(** [DecryptForUser] decrypts data for a specific user using a derived
    key. *)
Definition DecryptForUser (ukd : UserKeyDeriver) (ciphertextHex : string)
    (id : userID) : result string :=
  let userKey := DeriveUserKey ukd id in
  DecryptString ciphertextHex userKey.

(** *** The ECB block modes *)

(** A [cipher.Block], by its three methods.  [blockEncrypt dst src] and
    [blockDecrypt dst src] are what [dst] holds after [Encrypt(dst, src)] and
    [Decrypt(dst, src)]; [None] is a panic.  The two slices do not overlap,
    or are one and the same. *)
Record cipherBlock : Type := {
  blockSize : nat;
  blockEncrypt : list byte -> list byte -> option (list byte);
  blockDecrypt : list byte -> list byte -> option (list byte)
}.

(** The block [aes.NewCipher] returns, as a [cipher.Block]: it reads the
    first 16 bytes of [src] and overwrites the first 16 bytes of [dst], and
    panics when either is shorter than a block. *)
Definition aesBlock (c : AES.Block) : cipherBlock :=
  {| blockSize := AES.BlockSize;
     blockEncrypt dst src :=
       if decide (length dst < AES.BlockSize) then None
       else out ← AES.Encrypt c src; Some (out ++ drop AES.BlockSize dst);
     blockDecrypt dst src :=
       if decide (length dst < AES.BlockSize) then None
       else out ← AES.Decrypt c src; Some (out ++ drop AES.BlockSize dst) |}.

(** [ecbEncrypter] and [ecbDecrypter], with their constructors. *)
Record ecbEncrypter : Type := NewECBEncrypter { encrypter_b : cipherBlock }.
Record ecbDecrypter : Type := NewECBDecrypter { decrypter_b : cipherBlock }.

Definition ecbEncrypter_BlockSize (x : ecbEncrypter) : nat :=
  blockSize (encrypter_b x).

Definition ecbDecrypter_BlockSize (x : ecbDecrypter) : nat :=
  blockSize (decrypter_b x).

(** The loop of both [CryptBlocks] methods, for the block size [S n]:
    [for len(src) > 0 { crypt(dst, src[:bs]); src = src[bs:]; dst = dst[bs:] }].
    The result is what the caller's [dst] holds after the loop: the blocks
    the loop has stepped over, then the rest. *)
Equations? cryptLoop (n : nat) (crypt : list byte -> list byte -> option (list byte))
    (dst src : list byte) : option (list byte)
  by wf (length src) lt :=
  cryptLoop n crypt dst src with decide (0 < length src) => {
    | right _ := Some dst;
    | left _ :=
        match slice src 0 (S n) with
        | None => None
        | Some block =>
            match crypt dst block with
            | None => None
            | Some dst' =>
                match slice dst' (S n) (length dst') with
                | None => None
                | Some dst'' =>
                    match cryptLoop n crypt dst'' (drop (S n) src) with
                    | None => None
                    | Some rest => Some (take (S n) dst' ++ rest)
                    end
                end
            end
        end }.
Proof. rewrite length_drop. lia. Qed.

(** [ecbEncrypter.CryptBlocks].  A block size of 0 makes the remainder
    panic with a division by zero. *)
Definition ecbEncrypter_CryptBlocks (x : ecbEncrypter) (dst src : list byte)
    : option (list byte) :=
  match ecbEncrypter_BlockSize x with
  | 0 => None
  | S n =>
      if decide (length src mod S n ≠ 0) then None
      else if decide (length dst < length src) then None
      else cryptLoop n (blockEncrypt (encrypter_b x)) dst src
  end.

(** [ecbDecrypter.CryptBlocks]. *)
Definition ecbDecrypter_CryptBlocks (x : ecbDecrypter) (dst src : list byte)
    : option (list byte) :=
  match ecbDecrypter_BlockSize x with
  | 0 => None
  | S n =>
      if decide (length src mod S n ≠ 0) then None
      else if decide (length dst < length src) then None
      else cryptLoop n (blockDecrypt (decrypter_b x)) dst src
  end.

(** ** Definitions the statements use *)

(** ECB over [n] blocks as one expression: the outputs of [crypt] on the
    successive 16-byte blocks of [src], concatenated. *)
Fixpoint ecb (n : nat) (crypt : list byte -> option (list byte))
    (src : list byte) : list byte :=
  match n with
  | 0 => []
  | S n' => default [] (crypt (take 16 src)) ++ ecb n' crypt (drop 16 src)
  end.

(** Key folding in the words of the specification: a key of exactly 16
    bytes is returned unchanged; otherwise a 16-byte zero-filled buffer
    receives the first up-to-16 bytes of the key, and every remaining key
    byte at position [i >= 16] is XOR-ed into buffer position [i mod 16]. *)
Definition foldStep (key buf : list byte) (i : nat) : list byte :=
  <[i mod 16 := bxor (buf !!! (i mod 16)) (key !!! i)]> buf.

Definition fold_key (key : list byte) : list byte :=
  if decide (length key = 16) then key
  else
    foldl (foldStep key)
          (take 16 key ++ replicate (16 - length key) x00)
          (seq 16 (length key - 16)).

(** The pad length of the specification, [blockSize - (len mod blockSize)]
    for the block size 16. *)
Definition padLen (n : nat) : nat := 16 - n mod 16.

(** [pad(data)] of the specification for the block size 16: the data,
    then [padLen] bytes of value [padLen]. *)
Definition pad16 (data : list byte) : list byte :=
  data ++ replicate (padLen (length data))
                    (byte_of_Z (Z.of_nat (padLen (length data)))).

(** The cipher [Encrypt] and [Decrypt] build for a key: the one
    [aes.NewCipher] makes from the folded key. *)
Definition cipherOf (key : list byte) : AES.Block :=
  {| AES.schedule := AES.roundKeys (AES.expandKey (aesKey key)) |}.

(** The error kinds of the specification. *)
Inductive ErrorKind : Type :=
| InvalidInput
| InvalidPadding
| InvalidEncoding
| CipherConstructionFailure.

(** The kind under which the specification reports each error the package
    returns: the four input checks of [Encrypt] and [Decrypt], the errors of
    unpadding, the wrapped hex error and the wrapped cipher error. *)
Definition errorKind (e : error) : option ErrorKind :=
  match e with
  | Errorf msg =>
      if ((msg =? "plaintext cannot be empty") || (msg =? "key cannot be empty")
          || (msg =? "ciphertext cannot be empty")
          || (msg =? "ciphertext length must be multiple of block size"))%string
      then Some InvalidInput
      else if ((msg =? "data is empty") || (msg =? "invalid padding"))%string
      then Some InvalidPadding
      else None
  | ErrorfW fmt _ =>
      if (fmt =? "failed to remove padding: %w")%string then Some InvalidPadding
      else if (fmt =? "invalid hex string: %w")%string then Some InvalidEncoding
      else if (fmt =? "failed to create cipher: %w")%string
      then Some CipherConstructionFailure
      else None
  | _ => None
  end.

(** A call fails with an error of kind [k]. *)
Definition failsWith {A : Type} (r : result A) (k : ErrorKind) : Prop :=
  ∃ e, r = Err e ∧ errorKind e = Some k.

Definition isDigit (c : ascii) : bool :=
  (48 <=? nat_of_ascii c) && (nat_of_ascii c <=? 57).

(** The number a string of decimal digits denotes, after [acc]; [None] when
    a character is not a digit. *)
Fixpoint decimalFrom (acc : N) (s : string) : option N :=
  match s with
  | EmptyString => Some acc
  | String c s' =>
      if isDigit c then decimalFrom (10 * acc + (N_of_ascii c - 48)) s' else None
  end.

(** The number a non-empty string of decimal digits denotes. *)
Definition decimalValue (s : string) : option N :=
  match s with
  | EmptyString => None
  | _ => decimalFrom 0 s
  end.

(** The canonical decimal text of [v], in the words of the specification:
    decimal digits that denote [v], with no leading [0] unless the text is
    ["0"]. *)
Definition canonicalDecimal (v : N) (text : string) : Prop :=
  decimalValue text = Some v ∧ ∀ rest, text = String "0" rest -> rest = "".

(** The textual form of an identity, in the words of the specification:
    plain decimal digits for an unsigned integer; decimal digits with a
    leading [-] only if negative for a signed integer; the string itself for
    a string; the generic rendering for any other value. *)
Definition identityText (id : userID) (text : string) : Prop :=
  match id with
  | ID_uint v | ID_uint64 v => canonicalDecimal v text
  | ID_int v | ID_int64 v =>
      if decide (v < 0)%Z
      then ∃ s, text = String "-" s ∧ canonicalDecimal (Z.to_N (- v)) s
      else canonicalDecimal (Z.to_N v) text
  | ID_string s => text = s
  | ID_other printed => text = printed
  end.

(** A string is valid hex when its length is even and all its characters
    are hex digits. *)
Definition validHex (s : string) : Prop :=
  Nat.Even (String.length s)
  ∧ Forall (fun c => is_Some (Hex.fromHexChar c)) (list_byte_of_string s).

(** [DecryptForUser] applied to what [EncryptForUser] returns. *)
Definition crossDecrypt (ukd : UserKeyDeriver) (plaintext : string)
    (idA idB : userID) : result string :=
  match EncryptForUser ukd plaintext idA with
  | Ok c => DecryptForUser ukd c idB
  | Err e => Err e
  | Panic => Panic
  end.

(** The deriver of the package's own tests, and one with short parameters. *)
Definition testDeriver : UserKeyDeriver :=
  NewUserKeyDeriver "S4ty7H3mhy9sdaP54TRVne6ABDSafKqZ" "testsalt".

Definition shortDeriver : UserKeyDeriver := NewUserKeyDeriver "BASE" "SALT".

(** The transform of the specification in one expression: fold the key,
    pad the plaintext, encrypt block by block. *)
Definition transform (plaintext key : list byte) : list byte :=
  ecb (length plaintext / 16 + 1)
      (AES.Encrypt {| AES.schedule := AES.roundKeys (AES.expandKey (fold_key key)) |})
      (pad16 plaintext).

(** Bytes given in hex, for examples. *)
Definition hexBytes (s : string) : list byte := (Hex.DecodeString s).1.

(** The XOR of a sequence of bytes. *)
Definition xorAll (l : list byte) : byte := foldr bxor x00 l.

(** The positions of a key of [n] bytes that are congruent to [j] modulo
    16, in increasing order. *)
Definition residues (n j : nat) : list nat :=
  filter (fun i => i mod 16 = j) (seq 0 n).

(** A byte with the lower-case letters [a] to [z] turned into upper case,
    and a string so treated (what [strings.ToUpper] does to ASCII text, and
    the case the database prints hex in). *)
Definition upperByte (c : byte) : byte :=
  let n := Byte.to_nat c in
  if decide (97 <= n <= 122) then default c (Byte.of_nat (n - 32)) else c.

Definition upperString (s : string) : string :=
  string_of_list_byte (map upperByte (list_byte_of_string s)).

(** A lower-case hex digit. *)
Definition isLowerHex (c : byte) : Prop :=
  48 <= Byte.to_nat c <= 57 ∨ 97 <= Byte.to_nat c <= 102.

#[global] Instance isLowerHex_dec (c : byte) : Decision (isLowerHex c).
Proof. unfold isLowerHex. apply _. Defined.

(** * Properties *)

(** ** Bytes *)

Section ByteFacts.

Lemma to_bits_inj (a b : byte) : Byte.to_bits a = Byte.to_bits b -> a = b.
Proof.
  intros H.
  rewrite <- (Byte.of_bits_to_bits a), <- (Byte.of_bits_to_bits b).
  now rewrite H.
Qed.

Lemma to_bits_bxor (a b : byte) :
  Byte.to_bits (bxor a b) = bits_xor (Byte.to_bits a) (Byte.to_bits b).
Proof. unfold bxor. apply Byte.to_bits_of_bits. Qed.

Lemma bits_xor_comm (x y : bits8) : bits_xor x y = bits_xor y x.
Proof.
  destruct x as [a0 [a1 [a2 [a3 [a4 [a5 [a6 a7]]]]]]].
  destruct y as [b0 [b1 [b2 [b3 [b4 [b5 [b6 b7]]]]]]]. simpl.
  repeat (apply (f_equal2 pair); [apply xorb_comm |]). apply xorb_comm.
Qed.

Lemma bits_xor_assoc (x y z : bits8) :
  bits_xor x (bits_xor y z) = bits_xor (bits_xor x y) z.
Proof.
  destruct x as [a0 [a1 [a2 [a3 [a4 [a5 [a6 a7]]]]]]].
  destruct y as [b0 [b1 [b2 [b3 [b4 [b5 [b6 b7]]]]]]].
  destruct z as [c0 [c1 [c2 [c3 [c4 [c5 [c6 c7]]]]]]]. simpl.
  repeat (apply (f_equal2 pair); [symmetry; apply xorb_assoc |]).
  symmetry; apply xorb_assoc.
Qed.

Lemma bxor_comm (a b : byte) : bxor a b = bxor b a.
Proof. apply to_bits_inj. rewrite !to_bits_bxor. apply bits_xor_comm. Qed.

Lemma bxor_assoc (a b c : byte) : bxor a (bxor b c) = bxor (bxor a b) c.
Proof. apply to_bits_inj. rewrite !to_bits_bxor. apply bits_xor_assoc. Qed.

Lemma bxor_0_l (a : byte) : bxor x00 a = a.
Proof. destruct a; reflexivity. Qed.

Lemma bxor_0_r (a : byte) : bxor a x00 = a.
Proof. destruct a; reflexivity. Qed.

Lemma bxor_nilpotent (a : byte) : bxor a a = x00.
Proof. destruct a; reflexivity. Qed.

Lemma bxor_cancel_r (a b : byte) : bxor (bxor a b) b = a.
Proof. rewrite <- bxor_assoc, bxor_nilpotent. apply bxor_0_r. Qed.

(** The middle two of four operands may be exchanged. *)
Lemma bxor_interchange (a b c d : byte) :
  bxor (bxor a b) (bxor c d) = bxor (bxor a c) (bxor b d).
Proof.
  rewrite <- !bxor_assoc. f_equal.
  rewrite !bxor_assoc. f_equal. apply bxor_comm.
Qed.

Lemma xor4_bxor (a b c d a' b' c' d' : byte) :
  xor4 (bxor a a') (bxor b b') (bxor c c') (bxor d d')
  = bxor (xor4 a b c d) (xor4 a' b' c' d').
Proof.
  unfold xor4.
  rewrite (bxor_interchange a a' b b').
  rewrite (bxor_interchange (bxor a b) (bxor a' b') c c').
  apply bxor_interchange.
Qed.

Lemma Z_of_byte_range (b : byte) : (0 <= Z_of_byte b < 256)%Z.
Proof.
  unfold Z_of_byte. pose proof (Byte.to_N_bounded b). lia.
Qed.

Lemma byte_of_Z_of_byte (b : byte) : byte_of_Z (Z_of_byte b) = b.
Proof.
  unfold byte_of_Z. rewrite Z.mod_small by apply Z_of_byte_range.
  unfold Z_of_byte. rewrite N2Z.id, Byte.of_to_N. reflexivity.
Qed.

Lemma Z_of_byte_of_Z (n : Z) : (0 <= n < 256)%Z -> Z_of_byte (byte_of_Z n) = n.
Proof.
  intros Hn. unfold byte_of_Z, Z_of_byte. rewrite Z.mod_small by lia.
  destruct (Byte.of_N (Z.to_N n)) as [b|] eqn:Hb.
  - apply Byte.to_of_N in Hb. simpl. lia.
  - apply Byte.of_N_None_iff in Hb. lia.
Qed.

End ByteFacts.

(** ** The block cipher

    The inverse cipher undoes the cipher, for every key schedule. *)

Module AESFacts.
Import AES.

(** FIPS-197, appendix B. *)
Example fips197_B :
  (c ← match NewCipher (hexBytes "2b7e151628aed2a6abf7158809cf4f3c") with
       | Ok c => Some c | _ => None end;
   Encrypt c (hexBytes "3243f6a8885a308d313198a2e0370734"))
  = Some (hexBytes "3925841d02dc09fbdc118597196a0b32").
Proof. vm_compute. reflexivity. Qed.

(** FIPS-197, appendix C.1 (AES-128). *)
Example fips197_C1 :
  (c ← match NewCipher (hexBytes "000102030405060708090a0b0c0d0e0f") with
       | Ok c => Some c | _ => None end;
   Encrypt c (hexBytes "00112233445566778899aabbccddeeff"))
  = Some (hexBytes "69c4e0d86a7b0430d8cdb78070b4c55a").
Proof. vm_compute. reflexivity. Qed.

(** FIPS-197, appendix C.2 (AES-192). *)
Example fips197_C2 :
  (c ← match NewCipher
               (hexBytes "000102030405060708090a0b0c0d0e0f1011121314151617") with
       | Ok c => Some c | _ => None end;
   Encrypt c (hexBytes "00112233445566778899aabbccddeeff"))
  = Some (hexBytes "dda97ca4864cdfe06eaf70a0ec0d7191").
Proof. vm_compute. reflexivity. Qed.

(** FIPS-197, appendix C.3 (AES-256). *)
Example fips197_C3 :
  (c ← match NewCipher
               (hexBytes
                  "000102030405060708090a0b0c0d0e0f101112131415161718191a1b1c1d1e1f") with
       | Ok c => Some c | _ => None end;
   Encrypt c (hexBytes "00112233445566778899aabbccddeeff"))
  = Some (hexBytes "8ea2b7ca516745bfeafc49904b496089").
Proof. vm_compute. reflexivity. Qed.

Example fips197_C1_inverse :
  (c ← match NewCipher (hexBytes "000102030405060708090a0b0c0d0e0f") with
       | Ok c => Some c | _ => None end;
   Decrypt c (hexBytes "69c4e0d86a7b0430d8cdb78070b4c55a"))
  = Some (hexBytes "00112233445566778899aabbccddeeff").
Proof. vm_compute. reflexivity. Qed.

(** *** The S-box *)

Lemma inv_sbox_sbox (b : byte) : inv_sbox (sbox b) = b.
Proof. destruct b; reflexivity. Qed.

Lemma sbox_inv_sbox (b : byte) : sbox (inv_sbox b) = b.
Proof. destruct b; reflexivity. Qed.

Lemma invSubWord_subWord (w : word) : invSubWord (subWord w) = w.
Proof. destruct w; simpl; now rewrite !inv_sbox_sbox. Qed.

Lemma subWord_invSubWord (w : word) : subWord (invSubWord w) = w.
Proof. destruct w; simpl; now rewrite !sbox_inv_sbox. Qed.

(** *** Columns: the two matrices are inverse to each other

    Both maps are additive, so it is enough to compare them on the words
    with a single non-zero byte. *)

Lemma xtime_xor (a b : byte) : xtime (bxor a b) = bxor (xtime a) (xtime b).
Proof.
  apply to_bits_inj. rewrite to_bits_bxor. unfold xtime.
  rewrite to_bits_bxor.
  destruct (Byte.to_bits a) as [a0 [a1 [a2 [a3 [a4 [a5 [a6 a7]]]]]]].
  destruct (Byte.to_bits b) as [b0 [b1 [b2 [b3 [b4 [b5 [b6 b7]]]]]]].
  cbn [bits_xor]. rewrite !Byte.to_bits_of_bits. cbn [bits_xor].
  destruct a7, b7, a0, b0, a2, b2, a3, b3; reflexivity.
Qed.

Lemma mul2_xor (a b : byte) : mul2 (bxor a b) = bxor (mul2 a) (mul2 b).
Proof. apply xtime_xor. Qed.

Lemma mul3_xor (a b : byte) : mul3 (bxor a b) = bxor (mul3 a) (mul3 b).
Proof. unfold mul3. rewrite !xtime_xor. apply bxor_interchange. Qed.

Lemma mul9_xor (a b : byte) : mul9 (bxor a b) = bxor (mul9 a) (mul9 b).
Proof. unfold mul9. rewrite !xtime_xor. apply bxor_interchange. Qed.

Lemma mul11_xor (a b : byte) : mul11 (bxor a b) = bxor (mul11 a) (mul11 b).
Proof.
  unfold mul11. rewrite !xtime_xor.
  rewrite (bxor_interchange (xtime (xtime (xtime a)))). apply bxor_interchange.
Qed.

Lemma mul13_xor (a b : byte) : mul13 (bxor a b) = bxor (mul13 a) (mul13 b).
Proof.
  unfold mul13. rewrite !xtime_xor.
  rewrite (bxor_interchange (xtime (xtime (xtime a)))). apply bxor_interchange.
Qed.

Lemma mul14_xor (a b : byte) : mul14 (bxor a b) = bxor (mul14 a) (mul14 b).
Proof.
  unfold mul14. rewrite !xtime_xor.
  rewrite (bxor_interchange (xtime (xtime (xtime a)))). apply bxor_interchange.
Qed.

Lemma mixColumn_xor (u v : word) :
  mixColumn (xorWord u v) = xorWord (mixColumn u) (mixColumn v).
Proof.
  destruct u, v. unfold mixColumn, xorWord.
  rewrite !mul2_xor, !mul3_xor. f_equal; apply xor4_bxor.
Qed.

Lemma invMixColumn_xor (u v : word) :
  invMixColumn (xorWord u v) = xorWord (invMixColumn u) (invMixColumn v).
Proof.
  destruct u, v. unfold invMixColumn, xorWord.
  rewrite !mul9_xor, !mul11_xor, !mul13_xor, !mul14_xor. f_equal; apply xor4_bxor.
Qed.

Lemma word_split (a b c d : byte) :
  W a b c d
  = xorWord (xorWord (W a x00 x00 x00) (W x00 b x00 x00))
            (xorWord (W x00 x00 c x00) (W x00 x00 x00 d)).
Proof. simpl. now rewrite !bxor_0_l, !bxor_0_r. Qed.

Lemma invMixColumn_mixColumn_unit (a : byte) :
  invMixColumn (mixColumn (W a x00 x00 x00)) = W a x00 x00 x00
  ∧ invMixColumn (mixColumn (W x00 a x00 x00)) = W x00 a x00 x00
  ∧ invMixColumn (mixColumn (W x00 x00 a x00)) = W x00 x00 a x00
  ∧ invMixColumn (mixColumn (W x00 x00 x00 a)) = W x00 x00 x00 a.
Proof. destruct a; vm_compute; auto. Qed.

Lemma mixColumn_invMixColumn_unit (a : byte) :
  mixColumn (invMixColumn (W a x00 x00 x00)) = W a x00 x00 x00
  ∧ mixColumn (invMixColumn (W x00 a x00 x00)) = W x00 a x00 x00
  ∧ mixColumn (invMixColumn (W x00 x00 a x00)) = W x00 x00 a x00
  ∧ mixColumn (invMixColumn (W x00 x00 x00 a)) = W x00 x00 x00 a.
Proof. destruct a; vm_compute; auto. Qed.

Lemma invMixColumn_mixColumn (w : word) : invMixColumn (mixColumn w) = w.
Proof.
  destruct w as [a b c d]. rewrite (word_split a b c d).
  rewrite !mixColumn_xor, !invMixColumn_xor.
  destruct (invMixColumn_mixColumn_unit a) as (-> & _).
  destruct (invMixColumn_mixColumn_unit b) as (_ & -> & _).
  destruct (invMixColumn_mixColumn_unit c) as (_ & _ & -> & _).
  destruct (invMixColumn_mixColumn_unit d) as (_ & _ & _ & ->).
  reflexivity.
Qed.

Lemma mixColumn_invMixColumn (w : word) : mixColumn (invMixColumn w) = w.
Proof.
  destruct w as [a b c d]. rewrite (word_split a b c d).
  rewrite !invMixColumn_xor, !mixColumn_xor.
  destruct (mixColumn_invMixColumn_unit a) as (-> & _).
  destruct (mixColumn_invMixColumn_unit b) as (_ & -> & _).
  destruct (mixColumn_invMixColumn_unit c) as (_ & _ & -> & _).
  destruct (mixColumn_invMixColumn_unit d) as (_ & _ & _ & ->).
  reflexivity.
Qed.

(** *** The four transformations of a round *)

Lemma invSubBytes_subBytes (s : state) : invSubBytes (subBytes s) = s.
Proof. destruct s; simpl; now rewrite !invSubWord_subWord. Qed.

Lemma subBytes_invSubBytes (s : state) : subBytes (invSubBytes s) = s.
Proof. destruct s; simpl; now rewrite !subWord_invSubWord. Qed.

Lemma invMixColumns_mixColumns (s : state) : invMixColumns (mixColumns s) = s.
Proof. destruct s; simpl; now rewrite !invMixColumn_mixColumn. Qed.

Lemma mixColumns_invMixColumns (s : state) : mixColumns (invMixColumns s) = s.
Proof. destruct s; simpl; now rewrite !mixColumn_invMixColumn. Qed.

Lemma invShiftRows_shiftRows (s : state) : invShiftRows (shiftRows s) = s.
Proof. destruct s as [[] [] [] []]; reflexivity. Qed.

Lemma shiftRows_invShiftRows (s : state) : shiftRows (invShiftRows s) = s.
Proof. destruct s as [[] [] [] []]; reflexivity. Qed.

Lemma xorWord_cancel (w k : word) : xorWord (xorWord w k) k = w.
Proof. destruct w, k; simpl; now rewrite !bxor_cancel_r. Qed.

Lemma addRoundKey_involutive (k s : state) : addRoundKey k (addRoundKey k s) = s.
Proof. destruct k, s; simpl; now rewrite !xorWord_cancel. Qed.

(** *** Rounds *)

Lemma rounds_cons (k k' : state) (ks : list state) (s : state) :
  rounds (k :: k' :: ks) s
  = rounds (k' :: ks) (addRoundKey k (mixColumns (shiftRows (subBytes s)))).
Proof. reflexivity. Qed.

Lemma invRounds_cons (k k' : state) (ks : list state) (s : state) :
  invRounds (k :: k' :: ks) s
  = invSubBytes (invShiftRows (invMixColumns
      (addRoundKey k (invRounds (k' :: ks) s)))).
Proof. reflexivity. Qed.

Lemma invRounds_rounds (ks : list state) (s : state) :
  invRounds ks (rounds ks s) = s.
Proof.
  revert s. induction ks as [|k ks IH]; intros s; [reflexivity|].
  destruct ks as [|k' ks].
  - simpl. now rewrite addRoundKey_involutive, invShiftRows_shiftRows,
      invSubBytes_subBytes.
  - rewrite rounds_cons, invRounds_cons, IH.
    now rewrite addRoundKey_involutive, invMixColumns_mixColumns,
      invShiftRows_shiftRows, invSubBytes_subBytes.
Qed.

Lemma rounds_invRounds (ks : list state) (s : state) :
  rounds ks (invRounds ks s) = s.
Proof.
  revert s. induction ks as [|k ks IH]; intros s; [reflexivity|].
  destruct ks as [|k' ks].
  - simpl. now rewrite subBytes_invSubBytes, shiftRows_invShiftRows,
      addRoundKey_involutive.
  - rewrite invRounds_cons, rounds_cons.
    rewrite subBytes_invSubBytes, shiftRows_invShiftRows,
      mixColumns_invMixColumns, addRoundKey_involutive.
    apply IH.
Qed.

Lemma decryptState_encryptState (ks : list state) (s : state) :
  decryptState ks (encryptState ks s) = s.
Proof.
  destruct ks as [|k0 ks]; [reflexivity|]. simpl.
  now rewrite invRounds_rounds, addRoundKey_involutive.
Qed.

Lemma encryptState_decryptState (ks : list state) (s : state) :
  encryptState ks (decryptState ks s) = s.
Proof.
  destruct ks as [|k0 ks]; [reflexivity|]. simpl.
  now rewrite addRoundKey_involutive, rounds_invRounds.
Qed.

(** *** Blocks as byte sequences *)

Lemma bytesOfState_length (s : state) : length (bytesOfState s) = 16.
Proof. destruct s as [[] [] [] []]; reflexivity. Qed.

Lemma stateOfBytes_bytesOfState (s : state) : stateOfBytes (bytesOfState s) = Some s.
Proof. destruct s as [[] [] [] []]; reflexivity. Qed.

Lemma stateOfBytes_full (src : list byte) :
  length src = 16 -> ∃ s, stateOfBytes src = Some s ∧ bytesOfState s = src.
Proof.
  intros Hlen.
  do 16 (destruct src as [|? src]; [discriminate Hlen|]).
  destruct src; [|discriminate Hlen].
  eexists; split; reflexivity.
Qed.

Lemma stateOfBytes_short (src : list byte) :
  length src < 16 -> stateOfBytes src = None.
Proof.
  intros Hlen.
  do 16 (destruct src as [|? src]; [reflexivity|]).
  simpl in Hlen. lia.
Qed.

Lemma Encrypt_full (c : Block) (src : list byte) :
  length src = 16 -> ∃ out, Encrypt c src = Some out ∧ length out = 16.
Proof.
  intros Hlen. destruct (stateOfBytes_full src Hlen) as (s & Hs & _).
  unfold Encrypt. rewrite Hs. simpl. eexists; split; [reflexivity|].
  apply bytesOfState_length.
Qed.

Lemma Decrypt_full (c : Block) (src : list byte) :
  length src = 16 -> ∃ out, Decrypt c src = Some out ∧ length out = 16.
Proof.
  intros Hlen. destruct (stateOfBytes_full src Hlen) as (s & Hs & _).
  unfold Decrypt. rewrite Hs. simpl. eexists; split; [reflexivity|].
  apply bytesOfState_length.
Qed.

Lemma Decrypt_Encrypt (c : Block) (src out : list byte) :
  length src = 16 -> Encrypt c src = Some out -> Decrypt c out = Some src.
Proof.
  intros Hlen. destruct (stateOfBytes_full src Hlen) as (s & Hs & Hb).
  unfold Encrypt, Decrypt. rewrite Hs. simpl. intros [= <-].
  rewrite stateOfBytes_bytesOfState. simpl.
  now rewrite decryptState_encryptState, Hb.
Qed.

Lemma Encrypt_Decrypt (c : Block) (src out : list byte) :
  length src = 16 -> Decrypt c src = Some out -> Encrypt c out = Some src.
Proof.
  intros Hlen. destruct (stateOfBytes_full src Hlen) as (s & Hs & Hb).
  unfold Encrypt, Decrypt. rewrite Hs. simpl. intros [= <-].
  rewrite stateOfBytes_bytesOfState. simpl.
  now rewrite encryptState_decryptState, Hb.
Qed.

(** [NewCipher] accepts exactly the keys of 16, 24 and 32 bytes. *)
Lemma NewCipher_16 (key : list byte) :
  length key = 16 -> ∃ c, NewCipher key = Ok c.
Proof.
  intros Hlen. unfold NewCipher. rewrite Hlen.
  destruct (decide _) as [_|Hn]; [eauto | exfalso; apply Hn; lia].
Qed.

Lemma NewCipher_Ok (key : list byte) (c : Block) :
  NewCipher key = Ok c ->
  c = {| schedule := roundKeys (expandKey key) |}.
Proof.
  unfold NewCipher. destruct (decide _); now intros [= <-].
Qed.

End AESFacts.

(** ** The block loop *)

Section ECB.

Variable crypt : list byte -> option (list byte).

Lemma cryptBlocks_step (src dst : list byte) (i : nat) :
  cryptBlocks crypt src dst i
  = if decide (i < length src) then
      match slice dst i (i + BlockSize), slice src i (i + BlockSize) with
      | Some _, Some s =>
          match crypt s with
          | Some out => cryptBlocks crypt src (write dst i out) (i + BlockSize)
          | None => None
          end
      | _, _ => None
      end
    else Some dst.
Proof.
  simp cryptBlocks. destruct (decide (i < length src)); reflexivity.
Qed.

(** [crypt] maps full blocks to full blocks. *)
Hypothesis crypt_full :
  ∀ s, length s = 16 -> ∃ out, crypt s = Some out ∧ length out = 16.

Lemma ecb_length (n : nat) (src : list byte) :
  length src = 16 * n -> length (ecb n crypt src) = 16 * n.
Proof.
  revert src. induction n as [|n IH]; intros src Hlen; [reflexivity|].
  simpl ecb. rewrite length_app.
  destruct (crypt_full (take 16 src)) as (out & -> & Hout).
  { rewrite length_take. lia. }
  simpl. rewrite Hout, IH; [lia|]. rewrite length_drop. lia.
Qed.

(** The loop fills [dst] from [i] on with the blocks of [src] from [i] on,
    and does not panic when the two slices have one length and what is left
    of [src] is a whole number of blocks. *)
Lemma cryptBlocks_ecb (n : nat) (src dst : list byte) (i : nat) :
  length dst = length src ->
  length src = i + 16 * n ->
  cryptBlocks crypt src dst i = Some (take i dst ++ ecb n crypt (drop i src)).
Proof.
  revert dst i. induction n as [|n IH]; intros dst i Hdst Hsrc.
  - rewrite cryptBlocks_step. destruct (decide (i < length src)); [lia|].
    simpl. rewrite app_nil_r, take_ge by lia. reflexivity.
  - rewrite cryptBlocks_step. destruct (decide (i < length src)); [|lia].
    unfold slice, BlockSize, AES.BlockSize.
    destruct (decide (i <= i + 16 <= length dst)); [|lia].
    destruct (decide (i <= i + 16 <= length src)); [|lia].
    replace (i + 16 - i) with 16 by lia.
    destruct (crypt_full (take 16 (drop i src))) as (out & Hout & Hlen).
    { rewrite length_take, length_drop. lia. }
    rewrite Hout.
    assert (Hw : length (write dst i out) = length src).
    { unfold write. rewrite !length_app, length_take, length_drop. lia. }
    rewrite (IH _ _ Hw) by lia.
    f_equal. simpl ecb. rewrite Hout. simpl.
    rewrite drop_drop. unfold write.
    rewrite take_app_ge by (rewrite length_take; lia).
    rewrite length_take.
    replace (i + 16 - (i `min` length dst)) with 16 by lia.
    rewrite take_app_length' by lia.
    rewrite <- !app_assoc. reflexivity.
Qed.

End ECB.

(** Two block functions inverse to each other give inverse ECB passes. *)
Lemma ecb_inverse (f g : list byte -> option (list byte)) (n : nat)
    (src : list byte) :
  (∀ s, length s = 16 -> ∃ out, f s = Some out ∧ length out = 16) ->
  (∀ s out, length s = 16 -> f s = Some out -> g out = Some s) ->
  length src = 16 * n ->
  ecb n g (ecb n f src) = src.
Proof.
  intros Hfull Hinv. revert src.
  induction n as [|n IH]; intros src Hlen.
  - destruct src; [reflexivity | discriminate Hlen].
  - simpl ecb.
    assert (Ht : length (take 16 src) = 16) by (rewrite length_take; lia).
    destruct (Hfull (take 16 src) Ht) as (out & Hout & Hl).
    rewrite Hout. simpl.
    rewrite take_app_length', drop_app_length' by lia.
    rewrite (Hinv _ _ Ht Hout). simpl.
    rewrite IH by (rewrite length_drop; lia).
    apply take_drop.
Qed.

(** ** PKCS#7 *)

Section Padding.

Lemma padLen_range (n : nat) : 1 <= padLen n <= 16.
Proof.
  unfold padLen. pose proof (Nat.mod_upper_bound n 16). lia.
Qed.

Lemma padLen_blocks (n : nat) : n + padLen n = 16 * (n / 16 + 1).
Proof.
  unfold padLen. pose proof (Nat.mod_upper_bound n 16).
  pose proof (Nat.div_mod_eq n 16). lia.
Qed.

Lemma padLen_full (n : nat) : n mod 16 = 0 -> padLen n = 16.
Proof. unfold padLen. lia. Qed.

Lemma rem_len (data : list byte) :
  Z.rem (len data) 16 = Z.of_nat (length data mod 16).
Proof.
  unfold len. rewrite Z.rem_mod_nonneg by lia.
  now rewrite Nat2Z.inj_mod.
Qed.

(** With the block size 16, [pkcs7Pad] appends [padLen] bytes of value
    [padLen]. *)
Lemma pkcs7Pad_16 (data : list byte) :
  pkcs7Pad data 16
  = Some (data ++ replicate (padLen (length data))
                            (byte_of_Z (Z.of_nat (padLen (length data))))).
Proof.
  unfold pkcs7Pad. destruct (decide (16 <= 0)%Z); [lia|].
  rewrite rem_len. cbv zeta. unfold padLen.
  pose proof (Nat.mod_upper_bound (length data) 16).
  replace (16 - Z.of_nat (length data mod 16))%Z
    with (Z.of_nat (16 - length data mod 16)) by lia.
  now rewrite Nat2Z.id.
Qed.

Lemma verifyPadding_step (data : list byte) (padding : Z) (i : nat) :
  verifyPadding data padding i
  = if decide (i < length data) then
      if decide (data !!! i ≠ byte_of_Z padding) then false
      else verifyPadding data padding (i + 1)
    else true.
Proof.
  rewrite verifyPadding_equation_1.
  destruct (decide (i < length data));
    [apply verifyPadding_clause_1_equation_1
    | apply verifyPadding_clause_1_equation_2].
Qed.

(** The loop accepts exactly when every byte from [i] on is the pad byte. *)
Lemma verifyPadding_spec (data : list byte) (padding : Z) (i : nat) :
  verifyPadding data padding i = true
  ↔ ∀ j, i <= j < length data -> data !!! j = byte_of_Z padding.
Proof.
  remember (length data - i) as k eqn:Hk. revert i Hk.
  induction k as [|k IH]; intros i Hk; rewrite verifyPadding_step.
  - destruct (decide (i < length data)); [lia|]. split; [|reflexivity].
    intros _ j Hj. lia.
  - destruct (decide (i < length data)); [|lia].
    destruct (decide (data !!! i ≠ byte_of_Z padding)) as [Hne|Heq].
    + split; [discriminate|]. intros H. exfalso. apply Hne, H. lia.
    + apply dec_stable in Heq. rewrite (IH (i + 1)) by lia. split.
      * intros H j Hj. destruct (decide (j = i)) as [->|]; [exact Heq|].
        apply H. lia.
      * intros H j Hj. apply H. lia.
Qed.

(** The cases in which [pkcs7Unpad] succeeds: the last byte is some [n]
    between 1 and the length of the data, and the last [n] bytes are all
    [n].  It then removes these [n] bytes, whatever [n] is. *)
Lemma pkcs7Unpad_ok (data : list byte) (n : nat) :
  1 <= n <= length data ->
  Z_of_byte (data !!! (length data - 1)) = Z.of_nat n ->
  (∀ j, length data - n <= j < length data -> data !!! j = byte_of_Z (Z.of_nat n)) ->
  pkcs7Unpad data = Ok (take (length data - n) data).
Proof.
  intros Hn Hlast Hall. unfold pkcs7Unpad, len.
  destruct (decide (length data = 0)); [lia|].
  rewrite Hlast.
  destruct (decide (Z.of_nat n = 0 ∨ Z.of_nat n > Z.of_nat (length data))%Z);
    [lia|].
  replace (Z.to_nat (Z.of_nat (length data) - Z.of_nat n))
    with (length data - n) by lia.
  destruct (verifyPadding data (Z.of_nat n) (length data - n)) eqn:Hv;
    [reflexivity|].
  apply verifyPadding_spec in Hall. congruence.
Qed.

Lemma pkcs7Unpad_app (data : list byte) (n : nat) :
  1 <= n <= 255 ->
  pkcs7Unpad (data ++ replicate n (byte_of_Z (Z.of_nat n))) = Ok data.
Proof.
  intros Hn.
  set (padded := data ++ replicate n (byte_of_Z (Z.of_nat n))).
  assert (Hlen : length padded = length data + n).
  { unfold padded. now rewrite length_app, length_replicate. }
  assert (Hpad : ∀ j, length data <= j < length padded ->
                      padded !!! j = byte_of_Z (Z.of_nat n)).
  { intros j Hj. unfold padded. rewrite lookup_total_app_r by lia.
    apply list_lookup_total_correct, lookup_replicate_2. lia. }
  rewrite (pkcs7Unpad_ok padded n).
  - rewrite Hlen. replace (length data + n - n) with (length data) by lia.
    unfold padded. now rewrite take_app_length.
  - lia.
  - rewrite Hpad by lia. apply Z_of_byte_of_Z. lia.
  - intros j Hj. apply Hpad. lia.
Qed.

(** Conversely, what [pkcs7Unpad] returns is the data less a trailer of
    [n] bytes of value [n]. *)
Lemma pkcs7Unpad_Ok_inv (data out : list byte) :
  pkcs7Unpad data = Ok out ->
  ∃ n, 1 <= n <= 255 ∧ data = out ++ replicate n (byte_of_Z (Z.of_nat n)).
Proof.
  unfold pkcs7Unpad, len.
  destruct (decide (length data = 0)); [discriminate|].
  set (padding := Z_of_byte (data !!! (length data - 1))).
  pose proof (Z_of_byte_range (data !!! (length data - 1))) as Hr.
  fold padding in Hr.
  destruct (decide (padding = 0 ∨ padding > Z.of_nat (length data))%Z);
    [discriminate|].
  destruct (verifyPadding _ _ _) eqn:Hv; [|discriminate].
  intros [= <-]. exists (Z.to_nat padding). split; [lia|].
  rewrite Z2Nat.id by lia.
  rewrite verifyPadding_spec in Hv.
  rewrite <- (take_drop (Z.to_nat (Z.of_nat (length data) - padding)) data) at 1.
  f_equal. apply list_eq_same_length with (Z.to_nat padding).
  - now rewrite length_replicate.
  - rewrite length_drop. lia.
  - intros i x y Hi Hx Hy.
    apply lookup_replicate in Hy as [-> _].
    rewrite lookup_drop in Hx.
    apply list_lookup_total_correct in Hx. rewrite <- Hx. apply Hv. lia.
Qed.

(** [pkcs7Unpad] does not panic, and its errors are its own two. *)
Lemma pkcs7Unpad_cases (data : list byte) :
  (∃ out, pkcs7Unpad data = Ok out)
  ∨ pkcs7Unpad data = Err (Errorf "data is empty")
  ∨ pkcs7Unpad data = Err (Errorf "invalid padding").
Proof.
  unfold pkcs7Unpad.
  destruct (decide (length data = 0)); [auto|].
  destruct (decide _); [auto|].
  destruct (verifyPadding _ _ _); eauto.
Qed.

End Padding.

(** ** Key folding *)

Section KeyFolding.

Variable key : list byte.

Lemma xorWrapInner_step (k : list byte) (j i : nat) :
  xorWrapInner key k j i
  = if decide (j < keyLen ∧ i < length key)
    then xorWrapInner key (<[j := bxor (k !!! j) (key !!! i)]> k) (j + 1) (i + 1)
    else (k, i).
Proof.
  rewrite xorWrapInner_equation_1.
  destruct (decide (j < keyLen ∧ i < length key));
    [apply xorWrapInner_clause_1_equation_1
    | apply xorWrapInner_clause_1_equation_2].
Qed.

Lemma xorWrap_step (k : list byte) (i : nat) :
  xorWrap key k i
  = if decide (i < length key)
    then xorWrap key (xorWrapInner key k 0 i).1 (xorWrapInner key k 0 i).2
    else k.
Proof.
  rewrite xorWrap_equation_1.
  destruct (decide (i < length key));
    [apply xorWrap_clause_1_equation_1 | apply xorWrap_clause_1_equation_2].
Qed.

Lemma foldl_foldStep_length (idx : list nat) (buf : list byte) :
  length (foldl (foldStep key) buf idx) = length buf.
Proof.
  revert buf. induction idx as [|i idx IH]; intros buf; [reflexivity|].
  simpl. rewrite IH. apply length_insert.
Qed.

(** The inner loop, entered at [j] with [i] congruent to [j] modulo 16,
    runs [m] times, until [j] reaches 16 or [i] the end of the key, and
    performs the folding steps [i], ..., [i + m - 1]. *)
Lemma xorWrapInner_spec (m : nat) (k : list byte) (j i q : nat) :
  i = 16 * q + j ->
  j + m <= 16 ->
  i + m <= length key ->
  j + m = 16 ∨ i + m = length key ->
  xorWrapInner key k j i = (foldl (foldStep key) k (seq i m), i + m).
Proof.
  revert k j i. induction m as [|m IH]; intros k j i Hi Hj Hlen Hend.
  - rewrite xorWrapInner_step. unfold keyLen, AESKeyLen.
    destruct (decide (j < 128 / 8 ∧ i < length key)) as [[H1 H2]|_].
    + change (128 / 8) with 16 in H1. lia.
    + simpl. f_equal. lia.
  - rewrite xorWrapInner_step. unfold keyLen, AESKeyLen.
    destruct (decide (j < 128 / 8 ∧ i < length key)) as [_|Hn].
    + rewrite (IH _ (j + 1) (i + 1)) by lia.
      replace (i + 1 + m) with (i + S m) by lia.
      replace (i + 1) with (S i) by lia.
      cbn [seq foldl]. do 2 f_equal. unfold foldStep.
      replace (i mod 16) with j; [reflexivity|].
      subst i. rewrite Nat.add_comm, Nat.mul_comm, Nat.Div0.mod_add.
      symmetry. apply Nat.mod_small. lia.
    + exfalso. apply Hn. change (128 / 8) with 16. lia.
Qed.

(** The outer loop, entered at a multiple of 16 (or past the end),
    performs all the folding steps from [i] to the end of the key. *)
Lemma xorWrap_spec (n : nat) (k : list byte) (i : nat) :
  length key - i <= n ->
  (∃ q, i = 16 * q) ∨ length key <= i ->
  xorWrap key k i = foldl (foldStep key) k (seq i (length key - i)).
Proof.
  revert k i. induction n as [|n IH]; intros k i Hn Hi;
    rewrite xorWrap_step;
    (destruct (decide (i < length key)) as [Hlt|Hge];
     [|replace (length key - i) with 0 by lia; reflexivity]).
  - lia.
  - destruct Hi as [[q Hq]|]; [|lia].
    set (m := 16 `min` (length key - i)).
    rewrite (xorWrapInner_spec m k 0 i q) by (unfold m; lia).
    simpl fst; simpl snd.
    rewrite IH.
    + rewrite <- foldl_app, <- seq_app. f_equal. f_equal. unfold m. lia.
    + unfold m. lia.
    + unfold m. destruct (decide (16 <= length key - i)).
      * left. exists (q + 1). lia.
      * right. lia.
Qed.

Lemma copy_make (n : nat) :
  copy (make n) key = take n key ++ replicate (n - length key) x00.
Proof.
  unfold copy, make. rewrite length_replicate. f_equal.
  apply drop_replicate.
Qed.

(** [aesKey] computes the folding of the specification. *)
Lemma aesKey_fold_key : aesKey key = fold_key key.
Proof.
  unfold aesKey, fold_key. unfold keyLen, AESKeyLen.
  change (128 / 8) with 16.
  destruct (decide (length key = 16)); [reflexivity|].
  cbv zeta. rewrite copy_make.
  rewrite (xorWrap_spec (length key)); [reflexivity | lia |].
  left. exists 1. reflexivity.
Qed.

Lemma fold_key_length : length (fold_key key) = 16.
Proof.
  unfold fold_key. destruct (decide (length key = 16)); [assumption|].
  rewrite foldl_foldStep_length.
  rewrite length_app, length_take, length_replicate. lia.
Qed.

Lemma aesKey_length : length (aesKey key) = 16.
Proof. rewrite aesKey_fold_key. apply fold_key_length. Qed.

(** A key shorter than 16 bytes is zero-padded on the right. *)
Lemma aesKey_short :
  length key < 16 -> aesKey key = key ++ replicate (16 - length key) x00.
Proof.
  intros Hlen. rewrite aesKey_fold_key. unfold fold_key.
  destruct (decide (length key = 16)); [lia|].
  replace (length key - 16) with 0 by lia. simpl.
  now rewrite take_ge by lia.
Qed.

End KeyFolding.

(** ** Strings, hex and decimal text *)

Section Text.

Lemma list_byte_of_string_length (s : string) :
  length (list_byte_of_string s) = String.length s.
Proof.
  unfold list_byte_of_string. rewrite length_map.
  induction s as [|c s IH]; simpl; [reflexivity | now rewrite IH].
Qed.

Lemma list_byte_of_string_nil (s : string) :
  length (list_byte_of_string s) = 0 ↔ s = "".
Proof.
  rewrite list_byte_of_string_length.
  destruct s; simpl; split; intros H; try reflexivity; discriminate.
Qed.

Lemma list_byte_of_string_inj (s t : string) :
  list_byte_of_string s = list_byte_of_string t -> s = t.
Proof.
  intros H. rewrite <- (string_of_list_byte_of_string s),
    <- (string_of_list_byte_of_string t). now rewrite H.
Qed.

(** *** Hex *)

Lemma Encode_cons (v : byte) (src : list byte) :
  Hex.Encode (v :: src) = Hex.Encode [v] ++ Hex.Encode src.
Proof. reflexivity. Qed.

Lemma Encode_length (src : list byte) :
  length (Hex.Encode src) = 2 * length src.
Proof.
  induction src as [|v src IH]; [reflexivity|].
  rewrite Encode_cons, length_app, IH. simpl. lia.
Qed.

Lemma Decode_Encode_byte (v : byte) (rest : list byte) :
  Hex.Decode (Hex.Encode [v] ++ rest)
  = ((v :: (Hex.Decode rest).1), (Hex.Decode rest).2).
Proof.
  destruct v; cbn -[Hex.Decode]; cbn [Hex.Decode];
    destruct (Hex.Decode rest); reflexivity.
Qed.

(** Decoding what [Encode] produced gives the bytes back, without error. *)
Lemma Decode_Encode (src : list byte) : Hex.Decode (Hex.Encode src) = (src, None).
Proof.
  induction src as [|v src IH]; [reflexivity|].
  rewrite Encode_cons, Decode_Encode_byte, IH. reflexivity.
Qed.

Lemma DecodeString_EncodeToString (src : list byte) :
  Hex.DecodeString (Hex.EncodeToString src) = (src, None).
Proof.
  unfold Hex.DecodeString, Hex.EncodeToString.
  rewrite list_byte_of_string_of_list_byte. apply Decode_Encode.
Qed.

Lemma EncodeToString_inj (a b : list byte) :
  Hex.EncodeToString a = Hex.EncodeToString b -> a = b.
Proof.
  intros H.
  pose proof (DecodeString_EncodeToString a) as Ha.
  pose proof (DecodeString_EncodeToString b) as Hb.
  rewrite H in Ha. congruence.
Qed.

(** [Decode] reports no error only on an even number of hex digits. *)
Lemma Decode_None (n : nat) (src out : list byte) :
  length src <= n ->
  Hex.Decode src = (out, None) ->
  Nat.Even (length src) ∧ Forall (fun c => is_Some (Hex.fromHexChar c)) src.
Proof.
  revert src out. induction n as [|n IH]; intros src out Hlen.
  - destruct src; [|simpl in Hlen; lia]. intros _. split; [now exists 0 | constructor].
  - destruct src as [|p [|q rest]].
    + intros _. split; [now exists 0 | constructor].
    + simpl. destruct (Hex.fromHexChar p); discriminate.
    + cbn [Hex.Decode].
      destruct (Hex.fromHexChar p) as [a|] eqn:Hp; [|discriminate].
      destruct (Hex.fromHexChar q) as [b|] eqn:Hq; [|discriminate].
      destruct (Hex.Decode rest) as [out' err] eqn:Hrest.
      intros [= <- ->].
      destruct (IH rest out') as [[k Hk] Hall]; [simpl in Hlen; lia | exact Hrest |].
      split.
      * exists (S k). simpl. lia.
      * repeat constructor; [rewrite Hp | rewrite Hq | exact Hall]; eauto.
Qed.

(** Text that is not valid hex makes [DecodeString] report an error. *)
Lemma DecodeString_invalid (s : string) :
  ¬ validHex s -> ∃ out e, Hex.DecodeString s = (out, Some e).
Proof.
  intros Hinv. unfold Hex.DecodeString.
  destruct (Hex.Decode (list_byte_of_string s)) as [out [e|]] eqn:Hd; [eauto|].
  exfalso. apply Hinv.
  apply (Decode_None _ _ _ (le_n _)) in Hd as [Heven Hall].
  split; [|exact Hall]. now rewrite <- list_byte_of_string_length.
Qed.

(** *** Decimal *)

Lemma formatBits_step (u : N) (buf : string) :
  strconv.formatBits u buf
  = if decide (10 <= u)%N
    then strconv.formatBits (u / 10) (String (strconv.digit (u mod 10)) buf)
    else String (strconv.digit u) buf.
Proof.
  rewrite strconv.formatBits_equation_1.
  destruct (decide (10 <= u)%N);
    [apply strconv.formatBits_clause_1_equation_1
    | apply strconv.formatBits_clause_1_equation_2].
Qed.

Lemma digit_spec (d : N) :
  (d < 10)%N ->
  isDigit (strconv.digit d) = true ∧ (N_of_ascii (strconv.digit d) - 48 = d)%N.
Proof.
  intros Hd.
  assert (d = 0 ∨ d = 1 ∨ d = 2 ∨ d = 3 ∨ d = 4 ∨ d = 5 ∨ d = 6 ∨ d = 7
          ∨ d = 8 ∨ d = 9)%N as Hcases by lia.
  repeat (destruct Hcases as [->|Hcases]; [split; reflexivity|]).
  subst d. split; reflexivity.
Qed.

Lemma string_app_assoc (a b c : string) :
  ((a ++ b) ++ c = a ++ (b ++ c))%string.
Proof. induction a as [|x a IH]; simpl; [reflexivity | now rewrite IH]. Qed.

Lemma string_app_length (a b : string) :
  String.length (a ++ b)%string = String.length a + String.length b.
Proof. induction a as [|x a IH]; simpl; [reflexivity | now rewrite IH]. Qed.

(** [formatBits] puts in front of [buf] a non-empty string of decimal
    digits that denotes [u]. *)
Lemma formatBits_spec (n : nat) (u : N) (buf : string) :
  N.to_nat u <= n ->
  ∃ ds, strconv.formatBits u buf = (ds ++ buf)%string
        ∧ ds ≠ ""
        ∧ ∀ acc rest,
            decimalFrom acc (ds ++ rest)
            = decimalFrom (acc * 10 ^ N.of_nat (String.length ds) + u) rest.
Proof.
  revert u buf. induction n as [|n IH]; intros u buf Hn;
    rewrite formatBits_step; destruct (decide (10 <= u)%N) as [Hge|Hlt].
  - lia.
  - exists (String (strconv.digit u) ""). split; [reflexivity|].
    split; [discriminate|]. intros acc rest. simpl.
    destruct (digit_spec u ltac:(lia)) as [-> ->]. f_equal. lia.
  - assert (u / 10 < u)%N by (apply N.div_lt; lia).
    destruct (IH (u / 10)%N (String (strconv.digit (u mod 10)) buf))
      as (ds & -> & Hne & Hval); [lia|].
    exists (ds ++ String (strconv.digit (u mod 10)) "")%string.
    split; [now rewrite string_app_assoc|].
    split; [destruct ds; [congruence | discriminate]|].
    intros acc rest. rewrite string_app_assoc. simpl. rewrite Hval. simpl.
    assert (u mod 10 < 10)%N as Hd by (apply N.mod_lt; lia).
    destruct (digit_spec _ Hd) as [-> ->]. f_equal.
    rewrite string_app_length. simpl.
    rewrite Nat.add_1_r, Nat2N.inj_succ, N.pow_succ_r'.
    pose proof (N.div_mod u 10 ltac:(lia)). lia.
  - exists (String (strconv.digit u) ""). split; [reflexivity|].
    split; [discriminate|]. intros acc rest. simpl.
    destruct (digit_spec u ltac:(lia)) as [-> ->]. f_equal. lia.
Qed.

(** [FormatUint] prints the decimal digits of its argument and nothing
    else. *)
Lemma FormatUint_decimal (v : N) : decimalValue (strconv.FormatUint v) = Some v.
Proof.
  unfold strconv.FormatUint.
  destruct (formatBits_spec _ v "" (le_n _)) as (ds & -> & Hne & Hval).
  specialize (Hval 0%N ""). unfold decimalValue.
  destruct (ds ++ "")%string eqn:E.
  - destruct ds; [congruence | discriminate].
  - rewrite Hval. cbn [decimalFrom]. f_equal.
Qed.

(** [FormatInt] prints a minus sign in front of the digits of the absolute
    value when the argument is negative, and the digits alone otherwise. *)
Lemma FormatInt_decimal (v : Z) :
  if decide (v < 0)%Z
  then ∃ s, strconv.FormatInt v = String "-" s ∧ decimalValue s = Some (Z.to_N (- v))
  else decimalValue (strconv.FormatInt v) = Some (Z.to_N v).
Proof.
  unfold strconv.FormatInt. destruct (decide (v < 0)%Z).
  - eexists. split; [reflexivity|]. apply FormatUint_decimal.
  - apply FormatUint_decimal.
Qed.

End Text.

(** ** [Encrypt] and [Decrypt] *)

Section Transform.

Lemma NewCipher_aesKey (key : list byte) :
  AES.NewCipher (aesKey key) = Ok (cipherOf key).
Proof.
  destruct (AESFacts.NewCipher_16 (aesKey key) (aesKey_length key)) as [c Hc].
  rewrite Hc. f_equal. now apply AESFacts.NewCipher_Ok.
Qed.

Lemma pad16_length (data : list byte) :
  length (pad16 data) = 16 * (length data / 16 + 1).
Proof.
  unfold pad16. rewrite length_app, length_replicate. apply padLen_blocks.
Qed.

(** On non-empty arguments [Encrypt] returns the ECB encryption of the
    padded plaintext under the folded key. *)
Lemma Encrypt_Ok (plaintext key : list byte) :
  length plaintext ≠ 0 -> length key ≠ 0 ->
  Encrypt plaintext key
  = Ok (ecb (length plaintext / 16 + 1) (AES.Encrypt (cipherOf key))
            (pad16 plaintext)).
Proof.
  intros Hp Hk. unfold Encrypt.
  destruct (decide (length plaintext = 0)); [contradiction|].
  destruct (decide (length key = 0)); [contradiction|].
  cbv zeta. rewrite NewCipher_aesKey.
  change (Z.of_nat BlockSize) with 16%Z. rewrite pkcs7Pad_16. fold (pad16 plaintext).
  rewrite (cryptBlocks_ecb _ (AESFacts.Encrypt_full _) (length plaintext / 16 + 1)).
  - now rewrite take_0, drop_0.
  - apply length_replicate.
  - rewrite pad16_length. lia.
Qed.

(** On a non-empty ciphertext of whole blocks and a non-empty key,
    [Decrypt] unpads the ECB decryption under the folded key. *)
Lemma Decrypt_unpad (ciphertext key : list byte) :
  length ciphertext ≠ 0 -> length key ≠ 0 -> length ciphertext mod 16 = 0 ->
  Decrypt ciphertext key
  = match pkcs7Unpad (ecb (length ciphertext / 16) (AES.Decrypt (cipherOf key))
                          ciphertext) with
    | Err err => Err (ErrorfW "failed to remove padding: %w" err)
    | Panic => Panic
    | Ok unpaddedText => Ok unpaddedText
    end.
Proof.
  intros Hc Hk Hmod. unfold Decrypt.
  destruct (decide (length ciphertext = 0)); [contradiction|].
  destruct (decide (length key = 0)); [contradiction|].
  change BlockSize with 16.
  destruct (decide (length ciphertext mod 16 ≠ 0)); [contradiction|].
  cbv zeta. rewrite NewCipher_aesKey.
  rewrite (cryptBlocks_ecb _ (AESFacts.Decrypt_full _) (length ciphertext / 16)).
  - now rewrite take_0, drop_0.
  - apply length_replicate.
  - pose proof (Nat.div_mod_eq (length ciphertext) 16). lia.
Qed.

(** [Encrypt] computes the transform of the specification. *)
Lemma Encrypt_transform (plaintext key : list byte) :
  plaintext ≠ [] -> key ≠ [] -> Encrypt plaintext key = Ok (transform plaintext key).
Proof.
  intros Hp Hk. rewrite Encrypt_Ok by (destruct plaintext, key; simpl; congruence).
  unfold transform, cipherOf. now rewrite aesKey_fold_key.
Qed.

Lemma ecb_Encrypt_length (c : AES.Block) (n : nat) (src : list byte) :
  length src = 16 * n -> length (ecb n (AES.Encrypt c) src) = 16 * n.
Proof. apply ecb_length, AESFacts.Encrypt_full. Qed.

Lemma ecb_Decrypt_length (c : AES.Block) (n : nat) (src : list byte) :
  length src = 16 * n -> length (ecb n (AES.Decrypt c) src) = 16 * n.
Proof. apply ecb_length, AESFacts.Decrypt_full. Qed.

Lemma ecb_Decrypt_Encrypt (c : AES.Block) (n : nat) (src : list byte) :
  length src = 16 * n ->
  ecb n (AES.Decrypt c) (ecb n (AES.Encrypt c) src) = src.
Proof.
  apply ecb_inverse.
  - apply AESFacts.Encrypt_full.
  - apply AESFacts.Decrypt_Encrypt.
Qed.

Lemma ecb_Encrypt_Decrypt (c : AES.Block) (n : nat) (src : list byte) :
  length src = 16 * n ->
  ecb n (AES.Encrypt c) (ecb n (AES.Decrypt c) src) = src.
Proof.
  apply ecb_inverse.
  - apply AESFacts.Decrypt_full.
  - apply AESFacts.Encrypt_Decrypt.
Qed.

Lemma pkcs7Unpad_pad16 (data : list byte) : pkcs7Unpad (pad16 data) = Ok data.
Proof.
  apply pkcs7Unpad_app. pose proof (padLen_range (length data)). lia.
Qed.

(** Decrypting a ciphertext made of [n >= 1] whole blocks. *)
Lemma Decrypt_blocks (ciphertext key : list byte) (n : nat) :
  length ciphertext = 16 * n -> 0 < n -> length key ≠ 0 ->
  Decrypt ciphertext key
  = match pkcs7Unpad (ecb n (AES.Decrypt (cipherOf key)) ciphertext) with
    | Err err => Err (ErrorfW "failed to remove padding: %w" err)
    | Panic => Panic
    | Ok unpaddedText => Ok unpaddedText
    end.
Proof.
  intros Hlen Hn Hk. rewrite Decrypt_unpad; [| lia | assumption |].
  - rewrite Hlen. now rewrite Nat.mul_comm, Nat.div_mul by lia.
  - rewrite Hlen. now rewrite Nat.mul_comm, Nat.Div0.mod_mul.
Qed.

(** The errors of the package by kind. *)
Lemma Encrypt_empty_plaintext (key : list byte) :
  Encrypt [] key = Err (Errorf "plaintext cannot be empty").
Proof. reflexivity. Qed.

Lemma Encrypt_empty_key (plaintext : list byte) :
  plaintext ≠ [] -> Encrypt plaintext [] = Err (Errorf "key cannot be empty").
Proof. destruct plaintext; [congruence | reflexivity]. Qed.

Lemma Decrypt_empty_ciphertext (key : list byte) :
  Decrypt [] key = Err (Errorf "ciphertext cannot be empty").
Proof. reflexivity. Qed.

Lemma Decrypt_empty_key (ciphertext : list byte) :
  ciphertext ≠ [] -> Decrypt ciphertext [] = Err (Errorf "key cannot be empty").
Proof. destruct ciphertext; [congruence | reflexivity]. Qed.

Lemma Decrypt_partial_block (ciphertext key : list byte) :
  ciphertext ≠ [] -> key ≠ [] -> length ciphertext mod 16 ≠ 0 ->
  Decrypt ciphertext key
  = Err (Errorf "ciphertext length must be multiple of block size").
Proof.
  intros Hc Hk Hmod. unfold Decrypt.
  destruct (decide (length ciphertext = 0)) as [H0|_];
    [destruct ciphertext; [congruence | discriminate]|].
  destruct (decide (length key = 0)) as [H0|_];
    [destruct key; [congruence | discriminate]|].
  change BlockSize with 16.
  destruct (decide (length ciphertext mod 16 ≠ 0)); [reflexivity | contradiction].
Qed.

Lemma length_nonzero (l : list byte) : l ≠ [] ↔ length l ≠ 0.
Proof. destruct l; simpl; split; intros H; congruence. Qed.

End Transform.

(** ** The string wrappers *)

Section StringWrappers.

Lemma string_nonempty_bytes (s : string) :
  s ≠ "" -> length (list_byte_of_string s) ≠ 0.
Proof. intros H Hl. now apply list_byte_of_string_nil in Hl. Qed.

Lemma DeriveUserKey_nonempty (ukd : UserKeyDeriver) (id : userID) :
  DeriveUserKey ukd id ≠ "".
Proof.
  intros H. apply (f_equal String.length) in H. unfold DeriveUserKey in H.
  rewrite !string_app_length in H. simpl in H. lia.
Qed.

Lemma EncryptString_Ok (plaintext key : string) :
  plaintext ≠ "" -> key ≠ "" ->
  EncryptString plaintext key
  = Ok (Hex.EncodeToString
          (ecb (String.length plaintext / 16 + 1)
               (AES.Encrypt (cipherOf (list_byte_of_string key)))
               (pad16 (list_byte_of_string plaintext)))).
Proof.
  intros Hp Hk. unfold EncryptString.
  rewrite Encrypt_Ok by now apply string_nonempty_bytes.
  now rewrite list_byte_of_string_length.
Qed.

Lemma DecryptString_hex (ciphertext : list byte) (key : string) :
  DecryptString (Hex.EncodeToString ciphertext) key
  = match Decrypt ciphertext (list_byte_of_string key) with
    | Err err => Err err
    | Panic => Panic
    | Ok decrypted => Ok (string_of_list_byte decrypted)
    end.
Proof.
  unfold DecryptString. now rewrite DecodeString_EncodeToString.
Qed.

(** The cipher never rejects the folded key, so neither [Encrypt] nor
    [Decrypt] returns the error of the cipher construction. *)
Lemma Encrypt_no_cipher_error (plaintext key : list byte) (e : error) :
  Encrypt plaintext key ≠ Err (ErrorfW "failed to create cipher: %w" e).
Proof.
  unfold Encrypt.
  destruct (decide (length plaintext = 0)); [discriminate|].
  destruct (decide (length key = 0)); [discriminate|].
  cbv zeta. rewrite NewCipher_aesKey.
  destruct (pkcs7Pad _ _); [|discriminate].
  destruct (cryptBlocks _ _ _ _); discriminate.
Qed.

Lemma Decrypt_no_cipher_error (ciphertext key : list byte) (e : error) :
  Decrypt ciphertext key ≠ Err (ErrorfW "failed to create cipher: %w" e).
Proof.
  unfold Decrypt.
  destruct (decide (length ciphertext = 0)); [discriminate|].
  destruct (decide (length key = 0)); [discriminate|].
  destruct (decide (length ciphertext mod BlockSize ≠ 0)); [discriminate|].
  cbv zeta. rewrite NewCipher_aesKey.
  destruct (cryptBlocks _ _ _ _); [|discriminate].
  destruct (pkcs7Unpad _); discriminate.
Qed.

Lemma Decrypt_no_key_error (ciphertext key : list byte) :
  key ≠ [] -> Decrypt ciphertext key ≠ Err (Errorf "key cannot be empty").
Proof.
  intros Hk%length_nonzero. unfold Decrypt.
  destruct (decide (length ciphertext = 0)); [discriminate|].
  destruct (decide (length key = 0)); [contradiction|].
  destruct (decide (length ciphertext mod BlockSize ≠ 0)); [discriminate|].
  cbv zeta. rewrite NewCipher_aesKey.
  destruct (cryptBlocks _ _ _ _); [|discriminate].
  destruct (pkcs7Unpad _); discriminate.
Qed.

(** With a non-empty key, only the folded key matters. *)
Lemma cipherOf_aesKey (k k' : list byte) :
  aesKey k = aesKey k' -> cipherOf k = cipherOf k'.
Proof. unfold cipherOf. now intros ->. Qed.

(** The key enters only through its folding. *)
Lemma Encrypt_key_folded (plaintext key : list byte) :
  key ≠ [] -> Encrypt plaintext key = Encrypt plaintext (aesKey key).
Proof.
  intros Hk. destruct plaintext as [|b p]; [reflexivity|].
  assert (Hf : aesKey (aesKey key) = aesKey key).
  { unfold aesKey at 1. rewrite aesKey_length.
    destruct (decide (16 = keyLen)) as [_|Hn]; [reflexivity | now destruct Hn]. }
  rewrite !Encrypt_Ok; simpl; try congruence.
  - unfold cipherOf. now rewrite Hf.
  - rewrite aesKey_length. discriminate.
  - now apply length_nonzero.
Qed.

(** The scenarios of the specification and of the package's tests. *)
Example scenario_hello_world :
  EncryptString "Hello, World!" "myencryptionkey"
  = Ok "4437e013df2ed9bd9ab15709abe76a4e"
  ∧ DecryptString "4437e013df2ed9bd9ab15709abe76a4e" "myencryptionkey"
    = Ok "Hello, World!".
Proof. split; vm_compute; reflexivity. Qed.

Example scenario_error_handling :
  EncryptString "test" "" = Err (Errorf "key cannot be empty")
  ∧ DecryptString "invalid_hex" "key"
    = Err (ErrorfW "invalid hex string: %w" (InvalidByteError "i"))
  ∧ DecryptString "abcd" "key"
    = Err (Errorf "ciphertext length must be multiple of block size")
  ∧ DecryptString "abc" "key" = Err (ErrorfW "invalid hex string: %w" ErrLength).
Proof. repeat split; vm_compute; reflexivity. Qed.

Example scenario_user_keys :
  DeriveUserKey testDeriver (ID_uint 12345)
  = "S4ty7H3mhy9sdaP54TRVne6ABDSafKqZ12345:testsalt"
  ∧ DeriveUserKey testDeriver (ID_int 67890)
    = "S4ty7H3mhy9sdaP54TRVne6ABDSafKqZ67890:testsalt"
  ∧ DeriveUserKey testDeriver (ID_string "user123")
    = "S4ty7H3mhy9sdaP54TRVne6ABDSafKqZuser123:testsalt"
  ∧ DeriveUserKey testDeriver (ID_uint64 999999)
    = "S4ty7H3mhy9sdaP54TRVne6ABDSafKqZ999999:testsalt".
Proof. repeat split; vm_compute; reflexivity. Qed.

End StringWrappers.

(** ** Properties of the specification *)

Section RoundTrip.

(** C1. For every non-empty plaintext [p] and every non-empty key [k],
    [Encrypt p k] succeeds with some ciphertext [c], and [Decrypt c k]
    succeeds and returns exactly [p]. *)
Theorem Decrypt_Encrypt_roundtrip (p k : list byte) :
  p ≠ [] -> k ≠ [] ->
  ∃ c, Encrypt p k = Ok c ∧ Decrypt c k = Ok p.
Proof.
  intros Hp%length_nonzero Hk%length_nonzero.
  rewrite (Encrypt_Ok p k Hp Hk). eexists. split; [reflexivity|].
  set (n := length p / 16 + 1).
  rewrite (Decrypt_blocks _ k n); [| | lia | assumption].
  - rewrite ecb_Decrypt_Encrypt by apply pad16_length.
    now rewrite pkcs7Unpad_pad16.
  - apply ecb_Encrypt_length, pad16_length.
Qed.

Lemma Decrypt_Encrypt_roundtrip_witness :
  list_byte_of_string "Hello, World!" ≠ []
  ∧ list_byte_of_string "mykey" ≠ []
  ∧ ∃ c, Encrypt (list_byte_of_string "Hello, World!")
                 (list_byte_of_string "mykey") = Ok c
         ∧ Decrypt c (list_byte_of_string "mykey")
           = Ok (list_byte_of_string "Hello, World!").
Proof.
  split; [discriminate|]. split; [discriminate|].
  apply Decrypt_Encrypt_roundtrip; discriminate.
Defined.

End RoundTrip.

Section KeyFoldingClaim.

(** C4. A key of exactly 16 bytes is returned unchanged by [aesKey]; for
    any other key [aesKey] returns what the folding of the specification
    returns: a 16-byte zero-filled buffer that received the first up-to-16
    key bytes and then, for every position [i >= 16], key byte [i] XOR-ed
    into position [i mod 16] (so a shorter key is zero-padded on the right).
    The processed key is 16 bytes long whatever the key. *)
Theorem aesKey_spec (key : list byte) :
  (length key = 16 -> aesKey key = key)
  ∧ (length key ≠ 16 ->
     aesKey key
     = foldl (fun buf i => <[i mod 16 := bxor (buf !!! (i mod 16)) (key !!! i)]> buf)
             (take 16 key ++ replicate (16 - length key) x00)
             (seq 16 (length key - 16)))
  ∧ (length key < 16 -> aesKey key = key ++ replicate (16 - length key) x00)
  ∧ aesKey key = fold_key key
  ∧ length (aesKey key) = 16.
Proof.
  split; [|split; [|split; [|split]]].
  - intros H. rewrite aesKey_fold_key. unfold fold_key.
    destruct (decide (length key = 16)); [reflexivity | contradiction].
  - intros H. rewrite aesKey_fold_key. unfold fold_key.
    destruct (decide (length key = 16)); [contradiction | reflexivity].
  - apply aesKey_short.
  - apply aesKey_fold_key.
  - apply aesKey_length.
Qed.

Lemma aesKey_spec_witness :
  (length (list_byte_of_string "exactly16byteske") = 16
   ∧ aesKey (list_byte_of_string "exactly16byteske")
     = list_byte_of_string "exactly16byteske")
  ∧ (length (list_byte_of_string
               "this_is_a_very_long_key_that_should_be_wrapped_around") ≠ 16
     ∧ Hex.EncodeToString
         (aesKey (list_byte_of_string
                    "this_is_a_very_long_key_that_should_be_wrapped_around"))
       = "1c051f1d3269557767566761486e6862")
  ∧ (length (list_byte_of_string "short") < 16
     ∧ aesKey (list_byte_of_string "short")
       = list_byte_of_string "short" ++ replicate 11 x00).
Proof.
  split; [|split].
  - split; [reflexivity|].
    apply (proj1 (aesKey_spec (list_byte_of_string "exactly16byteske"))).
    reflexivity.
  - split; [intros H; vm_compute in H; discriminate|].
    rewrite (proj1 (proj2 (aesKey_spec
               (list_byte_of_string
                  "this_is_a_very_long_key_that_should_be_wrapped_around"))));
      [vm_compute; reflexivity | intros H; vm_compute in H; discriminate].
  - split; [vm_compute; lia|].
    rewrite (proj1 (proj2 (proj2 (aesKey_spec (list_byte_of_string "short")))));
      [reflexivity | vm_compute; lia].
Defined.

End KeyFoldingClaim.

Section Lengths.

(** C5. For every non-empty plaintext [p] and non-empty key [k],
    [Encrypt p k] succeeds, and the ciphertext is [padLen] bytes longer than
    [p] with [1 <= padLen <= 16], so that its length is the next multiple
    of 16 strictly above [len(p)]: a plaintext of whole blocks gains a full
    block of 16 bytes, and the ciphertext length is always a positive
    multiple of 16. *)
Theorem Encrypt_length (p k : list byte) :
  p ≠ [] -> k ≠ [] ->
  ∃ c, Encrypt p k = Ok c
       ∧ length c = length p + padLen (length p)
       ∧ 1 <= padLen (length p) <= 16
       ∧ (length p mod 16 = 0 -> length c = length p + 16)
       ∧ length c = 16 * (length p / 16 + 1)
       ∧ length c mod 16 = 0
       ∧ 0 < length c.
Proof.
  intros Hp%length_nonzero Hk%length_nonzero.
  rewrite (Encrypt_Ok p k Hp Hk). eexists. split; [reflexivity|].
  rewrite ecb_Encrypt_length by apply pad16_length.
  pose proof (padLen_blocks (length p)) as Hb.
  pose proof (padLen_range (length p)) as Hr.
  split; [lia|]. split; [lia|].
  split; [intros H; rewrite (padLen_full _ H) in Hb; lia|].
  split; [reflexivity|].
  split; [now rewrite Nat.mul_comm, Nat.Div0.mod_mul | lia].
Qed.

Lemma Encrypt_length_witness :
  list_byte_of_string "0123456789abcdef" ≠ []
  ∧ list_byte_of_string "key" ≠ []
  ∧ ∃ c, Encrypt (list_byte_of_string "0123456789abcdef")
                 (list_byte_of_string "key") = Ok c
         ∧ length c = 32.
Proof.
  split; [discriminate|]. split; [discriminate|].
  destruct (Encrypt_length (list_byte_of_string "0123456789abcdef")
              (list_byte_of_string "key"))
    as (c & Hc & _ & _ & Hfull & _); [discriminate | discriminate |].
  exists c. split; [exact Hc|]. apply Hfull. reflexivity.
Defined.

End Lengths.

Section PaddingClaim.

(** C6. For every byte sequence [data], the empty one and those of whole
    blocks included, [pkcs7Pad data 16] appends [padLen] bytes, each of
    value [padLen], with [1 <= padLen <= 16], and [pkcs7Unpad] of the result
    succeeds and returns exactly [data]; in particular unpadding the padded
    empty sequence returns the empty sequence. *)
Theorem pkcs7Unpad_pkcs7Pad :
  (∀ data : list byte,
     ∃ (n : nat) (b : byte),
       n = padLen (length data)
       ∧ 1 <= n <= 16
       ∧ Z_of_byte b = Z.of_nat n
       ∧ pkcs7Pad data 16 = Some (data ++ replicate n b)
       ∧ pkcs7Unpad (data ++ replicate n b) = Ok data)
  ∧ (padded ← pkcs7Pad [] 16; Some (pkcs7Unpad padded)) = Some (Ok []).
Proof.
  split.
  - intros data. exists (padLen (length data)), (byte_of_Z (Z.of_nat (padLen (length data)))).
    pose proof (padLen_range (length data)) as Hr.
    split; [reflexivity|]. split; [exact Hr|].
    split; [apply Z_of_byte_of_Z; lia|].
    split; [apply pkcs7Pad_16 | apply pkcs7Unpad_pad16].
  - vm_compute. reflexivity.
Qed.

End PaddingClaim.

Section Rejections.

Lemma failsWith_intro {A : Type} (r : result A) (e : error) (k : ErrorKind) :
  r = Err e -> errorKind e = Some k -> failsWith r k.
Proof. intros. exists e. auto. Qed.

(** C7. [Encrypt] with an empty plaintext and [Encrypt] with an empty key
    fail with [InvalidInput]; [Decrypt] fails with [InvalidInput] when the
    ciphertext is empty, the key is empty, or the ciphertext length is not a
    multiple of 16; [DecryptString] fails with [InvalidEncoding] when its
    input has odd length or a character that is not a hex digit. *)
Theorem rejections :
  (∀ key, failsWith (Encrypt [] key) InvalidInput)
  ∧ (∀ plaintext, failsWith (Encrypt plaintext []) InvalidInput)
  ∧ (∀ ciphertext key,
       ciphertext = [] ∨ key = [] ∨ length ciphertext mod 16 ≠ 0 ->
       failsWith (Decrypt ciphertext key) InvalidInput)
  ∧ (∀ ciphertextHex key,
       Nat.Odd (String.length ciphertextHex)
       ∨ Exists (fun c => Hex.fromHexChar c = None)
                (list_byte_of_string ciphertextHex) ->
       failsWith (DecryptString ciphertextHex key) InvalidEncoding).
Proof.
  split; [|split; [|split]].
  - intros key. eapply failsWith_intro; [apply Encrypt_empty_plaintext | reflexivity].
  - intros [|b p].
    + eapply failsWith_intro; [apply Encrypt_empty_plaintext | reflexivity].
    + eapply failsWith_intro; [apply Encrypt_empty_key; discriminate | reflexivity].
  - intros ciphertext key H.
    destruct ciphertext as [|b c].
    { eapply failsWith_intro; [apply Decrypt_empty_ciphertext | reflexivity]. }
    destruct key as [|b' k].
    { eapply failsWith_intro; [apply Decrypt_empty_key; discriminate | reflexivity]. }
    destruct H as [H|[H|H]]; try discriminate.
    eapply failsWith_intro;
      [apply Decrypt_partial_block; [discriminate | discriminate | exact H]
      | reflexivity].
  - intros s key H.
    destruct (DecodeString_invalid s) as (out & e & Hd).
    { intros [Heven Hall]. destruct H as [Hodd|Hex].
      - destruct Heven as [a Ha], Hodd as [b Hb]. lia.
      - apply Exists_exists in Hex as (c & Hin & Hc).
        rewrite Forall_forall in Hall. specialize (Hall c).
        apply Hall in Hin.
        rewrite Hc in Hin. now destruct Hin. }
    unfold DecryptString. rewrite Hd.
    eapply failsWith_intro; reflexivity.
Qed.

Lemma rejections_witness :
  (length (list_byte_of_string "abcd") mod 16 ≠ 0
   ∧ failsWith (Decrypt (list_byte_of_string "abcd") (list_byte_of_string "key"))
               InvalidInput)
  ∧ (Nat.Odd (String.length "abc")
     ∧ failsWith (DecryptString "abc" "key") InvalidEncoding)
  ∧ (Exists (fun c => Hex.fromHexChar c = None) (list_byte_of_string "invalid_hex")
     ∧ failsWith (DecryptString "invalid_hex" "key") InvalidEncoding).
Proof.
  assert (H1 : length (list_byte_of_string "abcd") mod 16 ≠ 0) by discriminate.
  assert (H2 : Nat.Odd (String.length "abc")) by (exists 1; reflexivity).
  assert (H3 : Exists (fun c => Hex.fromHexChar c = None)
                      (list_byte_of_string "invalid_hex"))
    by (apply Exists_cons_hd; reflexivity).
  destruct rejections as (_ & _ & Hd & Hs).
  split; [|split].
  - split; [exact H1|]. apply Hd. auto.
  - split; [exact H2|]. apply Hs. auto.
  - split; [exact H3|]. apply Hs. auto.
Defined.

End Rejections.

Section KeyDerivation.

(** A digit character is the character of its value. *)
Lemma digit_char (c : ascii) :
  isDigit c = true ->
  strconv.digit (N_of_ascii c - 48) = c ∧ (N_of_ascii c - 48 < 10)%N.
Proof.
  destruct c as [[] [] [] [] [] [] [] []]; intros H; vm_compute in H;
    try discriminate H; split; reflexivity.
Qed.

Lemma digit_zero (c : ascii) :
  isDigit c = true -> c ≠ "0"%char -> (1 <= N_of_ascii c - 48)%N.
Proof.
  destruct c as [[] [] [] [] [] [] [] []]; intros H Hc; vm_compute in H;
    try discriminate H; try (vm_compute; discriminate).
  now destruct Hc.
Qed.

(** The digits read after [acc] are the digits read after 0, with [acc]
    shifted in front of them. *)
Lemma decimalFrom_acc (s : string) (acc : N) :
  decimalFrom acc s
  = match decimalFrom 0 s with
    | Some w => Some (acc * 10 ^ N.of_nat (String.length s) + w)%N
    | None => None
    end.
Proof.
  revert acc. induction s as [|c s IH]; intros acc.
  - simpl. f_equal. lia.
  - cbn [decimalFrom String.length]. destruct (isDigit c); [|reflexivity].
    rewrite (IH (10 * acc + (N_of_ascii c - 48))%N),
            (IH (10 * 0 + (N_of_ascii c - 48))%N).
    destruct (decimalFrom 0 s) as [w|]; [|reflexivity].
    f_equal. rewrite Nat2N.inj_succ, N.pow_succ_r'.
    set (P := (10 ^ N.of_nat (String.length s))%N). lia.
Qed.

Lemma decimalFrom_cons (c : ascii) (s : string) (v : N) :
  decimalFrom 0 (String c s) = Some v ->
  isDigit c = true
  ∧ ∃ w, decimalFrom 0 s = Some w
         ∧ (v = (N_of_ascii c - 48) * 10 ^ N.of_nat (String.length s) + w)%N.
Proof.
  cbn [decimalFrom]. destruct (isDigit c); [|discriminate].
  rewrite decimalFrom_acc. destruct (decimalFrom 0 s) as [w|]; [|discriminate].
  intros [= <-]. split; [reflexivity|]. exists w. split; [reflexivity|]. lia.
Qed.

Lemma decimalFrom_bound (s : string) (v : N) :
  decimalFrom 0 s = Some v -> (v < 10 ^ N.of_nat (String.length s))%N.
Proof.
  revert v. induction s as [|c s IH]; intros v H.
  - injection H as <-. reflexivity.
  - apply decimalFrom_cons in H as (Hc & w & Hw & ->).
    apply IH in Hw. destruct (digit_char c Hc) as [_ Hd].
    cbn [String.length]. rewrite Nat2N.inj_succ, N.pow_succ_r'.
    set (P := (10 ^ N.of_nat (String.length s))%N) in *. nia.
Qed.

(** Two strings of digits of one length that denote one number are the same
    string. *)
Lemma decimalFrom_inj (s t : string) (v : N) :
  String.length s = String.length t ->
  decimalFrom 0 s = Some v -> decimalFrom 0 t = Some v -> s = t.
Proof.
  revert t v. induction s as [|c s IH]; intros [|c' t] v Hlen Hs Ht;
    try discriminate Hlen; [reflexivity|].
  injection Hlen as Hlen.
  apply decimalFrom_cons in Hs as (Hc & w & Hw & Hv).
  apply decimalFrom_cons in Ht as (Hc' & w' & Hw' & Hv').
  pose proof (decimalFrom_bound _ _ Hw) as Hb.
  pose proof (decimalFrom_bound _ _ Hw') as Hb'.
  destruct (digit_char c Hc) as [Hdc _], (digit_char c' Hc') as [Hdc' _].
  rewrite <- Hlen in Hv', Hb'.
  set (P := (10 ^ N.of_nat (String.length s))%N) in *.
  assert (Hd : (N_of_ascii c - 48 = N_of_ascii c' - 48)%N) by nia.
  assert (w = w') by nia. subst w'.
  f_equal.
  - rewrite <- Hdc, <- Hdc'. now rewrite Hd.
  - now apply (IH t w).
Qed.

(** A string of digits that does not start with [0] denotes a number of as
    many digits. *)
Lemma decimalFrom_head (c : ascii) (s : string) (v : N) :
  decimalFrom 0 (String c s) = Some v -> c ≠ "0"%char ->
  (10 ^ N.of_nat (String.length s) <= v)%N.
Proof.
  intros H Hc. apply decimalFrom_cons in H as (Hd & w & _ & ->).
  pose proof (digit_zero c Hd Hc).
  set (P := (10 ^ N.of_nat (String.length s))%N). nia.
Qed.

(** The canonical decimal text of a number is unique. *)
Lemma canonicalDecimal_unique (v : N) (s t : string) :
  canonicalDecimal v s -> canonicalDecimal v t -> s = t.
Proof.
  intros [Hs Hs0] [Ht Ht0].
  destruct s as [|c s]; [discriminate Hs|].
  destruct t as [|c' t]; [discriminate Ht|].
  unfold decimalValue in Hs, Ht.
  assert (Hpos : ∀ n, (0 < 10 ^ N.of_nat n)%N).
  { intros n. apply N.neq_0_lt_0, N.pow_nonzero. discriminate. }
  destruct (ascii_dec c "0") as [->|Hc], (ascii_dec c' "0") as [->|Hc'].
  - now rewrite (Hs0 s eq_refl), (Ht0 t eq_refl).
  - rewrite (Hs0 s eq_refl) in Hs. injection Hs as <-.
    pose proof (decimalFrom_head _ _ _ Ht Hc'). specialize (Hpos (String.length t)).
    lia.
  - rewrite (Ht0 t eq_refl) in Ht. injection Ht as <-.
    pose proof (decimalFrom_head _ _ _ Hs Hc). specialize (Hpos (String.length s)).
    lia.
  - apply (decimalFrom_inj _ _ v); [|assumption|assumption].
    pose proof (decimalFrom_head _ _ _ Hs Hc) as Hlo.
    pose proof (decimalFrom_head _ _ _ Ht Hc') as Hlo'.
    pose proof (decimalFrom_bound _ _ Hs) as Hhi.
    pose proof (decimalFrom_bound _ _ Ht) as Hhi'.
    cbn [String.length] in *.
    assert (H1 : (N.of_nat (String.length s) < N.of_nat (S (String.length t)))%N).
    { apply (N.pow_lt_mono_r_iff 10); lia. }
    assert (H2 : (N.of_nat (String.length t) < N.of_nat (S (String.length s)))%N).
    { apply (N.pow_lt_mono_r_iff 10); lia. }
    lia.
Qed.

(** [formatBits] never starts the digits of a positive number with [0]. *)
Lemma formatBits_head (n : nat) (u : N) (buf : string) :
  N.to_nat u <= n -> (0 < u)%N ->
  ∃ c rest, strconv.formatBits u buf = String c rest ∧ c ≠ "0"%char.
Proof.
  revert u buf. induction n as [|n IH]; intros u buf Hn Hu; [lia|].
  rewrite formatBits_step. destruct (decide (10 <= u)%N) as [Hge|Hlt].
  - assert (u / 10 < u)%N by (apply N.div_lt; lia).
    apply IH; [lia|]. apply N.div_str_pos. lia.
  - exists (strconv.digit u), buf. split; [reflexivity|].
    assert (u = 1 ∨ u = 2 ∨ u = 3 ∨ u = 4 ∨ u = 5 ∨ u = 6 ∨ u = 7 ∨ u = 8
            ∨ u = 9)%N as Hcases by lia.
    repeat (destruct Hcases as [->|Hcases]; [discriminate|]).
    subst u. discriminate.
Qed.

(** [FormatUint] prints the canonical decimal text of its argument. *)
Lemma FormatUint_canonical (v : N) : canonicalDecimal v (strconv.FormatUint v).
Proof.
  split; [apply FormatUint_decimal|].
  unfold strconv.FormatUint. destruct (decide (v = 0)%N) as [->|Hv].
  - rewrite formatBits_step. destruct (decide (10 <= 0)%N); [lia|].
    now intros rest [= <-].
  - destruct (formatBits_head _ v "" (le_n _)) as (c & r & -> & Hc); [lia|].
    intros rest [= -> _]. now destruct Hc.
Qed.

(** What the type switch of [DeriveUserKey] computes is the textual form of
    the identity, and the only one. *)
Lemma userIDStr_identityText (id : userID) : identityText id (userIDStr id).
Proof.
  destruct id as [v|v|v|v|s|printed]; cbn [identityText userIDStr];
    try reflexivity; try apply FormatUint_canonical;
    unfold strconv.Itoa, strconv.FormatInt;
    (destruct (decide (v < 0)%Z);
       [eexists; split; [reflexivity|] |]; apply FormatUint_canonical).
Qed.

Lemma identityText_unique (id : userID) (text : string) :
  identityText id text -> text = userIDStr id.
Proof.
  pose proof (userIDStr_identityText id) as Hc. revert Hc.
  destruct id as [v|v|v|v|s|printed]; cbn [identityText];
    try (intros -> ->; reflexivity);
    try (intros Hc H; exact (canonicalDecimal_unique _ _ _ H Hc));
    (destruct (decide (v < 0)%Z);
       [intros (s' & -> & Hs') (s & -> & Hs); f_equal;
        exact (canonicalDecimal_unique _ _ _ Hs Hs')
       |intros Hc H; exact (canonicalDecimal_unique _ _ _ H Hc)]).
Qed.

(** C8. [DeriveUserKey] returns exactly [baseKey ++ text ++ ":" ++ masterSalt],
    where [text] is: for an unsigned integer, its decimal digits, with no
    sign and no leading [0] unless the number is 0; for a signed integer, a
    [-] followed by these digits of the absolute value when it is negative,
    and the digits alone otherwise; for a string, the string itself; for any
    other value, the generic rendering of that value.  This description
    leaves no choice: a key that fits it for the same base key, salt and
    identity is the key returned, so base key, salt and identity determine
    the result.  With base ["BASE"], salt ["SALT"] and the unsigned identity
    42 the result is ["BASE42:SALT"]. *)
Theorem DeriveUserKey_spec :
  (∀ ukd id,
     ∃ text,
       DeriveUserKey ukd id = (baseKey ukd ++ text ++ ":" ++ masterSalt ukd)%string
       ∧ identityText id text)
  ∧ (∀ ukd id key,
       (∃ text, key = (baseKey ukd ++ text ++ ":" ++ masterSalt ukd)%string
                ∧ identityText id text) ->
       key = DeriveUserKey ukd id)
  ∧ DeriveUserKey (NewUserKeyDeriver "BASE" "SALT") (ID_uint 42) = "BASE42:SALT".
Proof.
  split; [|split].
  - intros ukd id. exists (userIDStr id). split; [reflexivity|].
    apply userIDStr_identityText.
  - intros ukd id key (text & -> & Htext).
    apply identityText_unique in Htext as ->. reflexivity.
  - vm_compute. reflexivity.
Qed.

Lemma DeriveUserKey_spec_witness :
  (∃ text, "S4ty7H3mhy9sdaP54TRVne6ABDSafKqZ-67890:testsalt"
           = (baseKey testDeriver ++ text ++ ":" ++ masterSalt testDeriver)%string
           ∧ identityText (ID_int (-67890)) text)
  ∧ "S4ty7H3mhy9sdaP54TRVne6ABDSafKqZ-67890:testsalt"
    = DeriveUserKey testDeriver (ID_int (-67890)).
Proof.
  assert (H : ∃ text, "S4ty7H3mhy9sdaP54TRVne6ABDSafKqZ-67890:testsalt"
                      = (baseKey testDeriver ++ text ++ ":"
                         ++ masterSalt testDeriver)%string
                      ∧ identityText (ID_int (-67890)) text).
  { exists "-67890". split; [reflexivity|].
    exists "67890". split; [reflexivity|]. split; [reflexivity|].
    intros rest H. discriminate H. }
  split; [exact H|].
  exact (proj1 (proj2 DeriveUserKey_spec) testDeriver (ID_int (-67890)) _ H).
Defined.

End KeyDerivation.

Section UserKeys.

(** C9. For every base key and master salt, empty ones included, and every
    identity: [DeriveUserKey] returns a non-empty string that contains the
    [:] separator; the key handed to the cipher constructor is 16 bytes
    long and the constructor accepts it, so [Encrypt] and [Decrypt] never
    return the cipher-construction error; [EncryptForUser] and
    [DecryptForUser] never fail with the empty-key error; and
    [EncryptForUser] succeeds on every non-empty plaintext. *)
Theorem EncryptForUser_succeeds (ukd : UserKeyDeriver) (id : userID) :
  DeriveUserKey ukd id ≠ ""
  ∧ (∃ front back, DeriveUserKey ukd id = (front ++ ":" ++ back)%string)
  ∧ (∀ key, length (aesKey key) = 16 ∧ ∃ block, AES.NewCipher (aesKey key) = Ok block)
  ∧ (∀ data key e,
       Encrypt data key ≠ Err (ErrorfW "failed to create cipher: %w" e)
       ∧ Decrypt data key ≠ Err (ErrorfW "failed to create cipher: %w" e))
  ∧ (∀ plaintext,
       EncryptForUser ukd plaintext id ≠ Err (Errorf "key cannot be empty"))
  ∧ (∀ ciphertextHex,
       DecryptForUser ukd ciphertextHex id ≠ Err (Errorf "key cannot be empty"))
  ∧ (∀ plaintext,
       plaintext ≠ "" -> ∃ c, EncryptForUser ukd plaintext id = Ok c).
Proof.
  pose proof (DeriveUserKey_nonempty ukd id) as Hne.
  split; [exact Hne|].
  split. { exists (baseKey ukd ++ userIDStr id)%string, (masterSalt ukd).
           unfold DeriveUserKey. now rewrite string_app_assoc. }
  split. { intros key. split; [apply aesKey_length|].
           exists (cipherOf key). apply NewCipher_aesKey. }
  split. { intros data key e. split;
             [apply Encrypt_no_cipher_error | apply Decrypt_no_cipher_error]. }
  split; [|split].
  - intros plaintext. unfold EncryptForUser. cbv zeta.
    destruct plaintext as [|c s]; [discriminate|].
    now rewrite EncryptString_Ok.
  - intros ciphertextHex. unfold DecryptForUser, DecryptString. cbv zeta.
    destruct (Hex.DecodeString ciphertextHex) as [ct [err|]]; [discriminate|].
    pose proof (Decrypt_no_key_error ct
                  (list_byte_of_string (DeriveUserKey ukd id))) as Hk.
    destruct (Decrypt ct _) as [d|err|]; try discriminate.
    intros [= ->]. apply Hk; [|reflexivity].
    apply length_nonzero, string_nonempty_bytes, Hne.
  - intros plaintext Hp. unfold EncryptForUser. cbv zeta.
    rewrite EncryptString_Ok by assumption. eauto.
Qed.

Lemma EncryptForUser_succeeds_witness :
  "sensitive data" ≠ ""
  ∧ ∃ c, EncryptForUser (NewUserKeyDeriver "" "") "sensitive data" (ID_string "")
         = Ok c.
Proof.
  split; [discriminate|].
  apply (EncryptForUser_succeeds (NewUserKeyDeriver "" "") (ID_string "")).
  discriminate.
Defined.

End UserKeys.

Section UnboundedPad.

(** C10. [pkcs7Unpad] does not bound the pad length by the block size: for
    every [data] whose last byte has a value [n] with [1 <= n <= len(data)]
    and whose last [n] bytes all have the value [n], it succeeds and removes
    all [n] trailing bytes, also when [n > 16]; 32 bytes of value [0x20]
    unpad to the empty sequence; and so a successful [Decrypt] can return a
    plaintext shorter than [len(ciphertext) - 16], the empty one included. *)
Theorem pkcs7Unpad_unbounded :
  (∀ (data : list byte) (n : nat),
     1 <= n <= length data ->
     Z_of_byte (data !!! (length data - 1)) = Z.of_nat n ->
     (∀ j, length data - n <= j < length data -> Z_of_byte (data !!! j) = Z.of_nat n) ->
     pkcs7Unpad data = Ok (take (length data - n) data))
  ∧ pkcs7Unpad (replicate 32 x20) = Ok []
  ∧ ∃ ciphertext key plaintext,
      Decrypt ciphertext key = Ok plaintext
      ∧ length plaintext < length ciphertext - 16
      ∧ plaintext = [].
Proof.
  split; [|split].
  - intros data n Hn Hlast Hall. apply pkcs7Unpad_ok; try assumption.
    intros j Hj. rewrite <- (Hall j Hj). symmetry. apply byte_of_Z_of_byte.
  - vm_compute. reflexivity.
  - exists (ecb 2 (AES.Encrypt (cipherOf (list_byte_of_string "key")))
                (replicate 32 x20)),
           (list_byte_of_string "key"), [].
    split; [vm_compute; reflexivity|]. split; [vm_compute; lia | reflexivity].
Qed.

Lemma pkcs7Unpad_unbounded_witness :
  1 <= 20 <= length (list_byte_of_string "payload" ++ replicate 20 x14)
  ∧ Z_of_byte ((list_byte_of_string "payload" ++ replicate 20 x14)
                 !!! (length (list_byte_of_string "payload" ++ replicate 20 x14) - 1))
    = Z.of_nat 20
  ∧ pkcs7Unpad (list_byte_of_string "payload" ++ replicate 20 x14)
    = Ok (list_byte_of_string "payload").
Proof.
  split; [vm_compute; lia|]. split; [reflexivity|].
  rewrite (proj1 pkcs7Unpad_unbounded
             (list_byte_of_string "payload" ++ replicate 20 x14) 20).
  - reflexivity.
  - vm_compute; lia.
  - reflexivity.
  - intros j Hj.
    change (length (list_byte_of_string "payload" ++ replicate 20 x14))
      with 27 in Hj.
    assert (j = 7 ∨ j = 8 ∨ j = 9 ∨ j = 10 ∨ j = 11 ∨ j = 12 ∨ j = 13
            ∨ j = 14 ∨ j = 15 ∨ j = 16 ∨ j = 17 ∨ j = 18 ∨ j = 19 ∨ j = 20
            ∨ j = 21 ∨ j = 22 ∨ j = 23 ∨ j = 24 ∨ j = 25 ∨ j = 26) as Hc by lia.
    repeat (destruct Hc as [->|Hc]; [reflexivity|]). subst j. reflexivity.
Defined.

End UnboundedPad.

Section Isolation.

(** Two derived keys that differ and fold to the same processed key: the
    seventeen digits of the two identities differ in their first and last
    digit only, and these two meet in one position of the folded key. *)
Example folded_keys_collide :
  DeriveUserKey shortDeriver (ID_uint 10000000000000002)
  = "BASE10000000000000002:SALT"
  ∧ DeriveUserKey shortDeriver (ID_uint 20000000000000001)
    = "BASE20000000000000001:SALT"
  ∧ aesKey (list_byte_of_string
              (DeriveUserKey shortDeriver (ID_uint 10000000000000002)))
    = aesKey (list_byte_of_string
                (DeriveUserKey shortDeriver (ID_uint 20000000000000001))).
Proof. vm_compute. auto. Qed.

(** What [crossDecrypt] computes on a non-empty plaintext. *)
Lemma crossDecrypt_eq (ukd : UserKeyDeriver) (p : string) (idA idB : userID) :
  p ≠ "" ->
  let pb := list_byte_of_string p in
  let n := length pb / 16 + 1 in
  let kA := list_byte_of_string (DeriveUserKey ukd idA) in
  let kB := list_byte_of_string (DeriveUserKey ukd idB) in
  crossDecrypt ukd p idA idB
  = match pkcs7Unpad (ecb n (AES.Decrypt (cipherOf kB))
                          (ecb n (AES.Encrypt (cipherOf kA)) (pad16 pb))) with
    | Err err => Err (ErrorfW "failed to remove padding: %w" err)
    | Panic => Panic
    | Ok d => Ok (string_of_list_byte d)
    end.
Proof.
  intros Hp pb n kA kB. unfold crossDecrypt, EncryptForUser, DecryptForUser.
  cbv zeta.
  rewrite EncryptString_Ok by (assumption || apply DeriveUserKey_nonempty).
  rewrite DecryptString_hex.
  rewrite <- list_byte_of_string_length. fold pb n kA kB.
  rewrite (Decrypt_blocks _ kB n).
  - destruct (pkcs7Unpad _); reflexivity.
  - apply ecb_Encrypt_length, pad16_length.
  - unfold n. lia.
  - apply string_nonempty_bytes, DeriveUserKey_nonempty.
Qed.

(** Two identities whose derived keys fold to one processed key are not
    kept apart: what is encrypted for one decrypts to the plaintext for the
    other. *)
Lemma crossDecrypt_same_fold (ukd : UserKeyDeriver) (p : string)
    (idA idB : userID) :
  p ≠ "" ->
  aesKey (list_byte_of_string (DeriveUserKey ukd idA))
  = aesKey (list_byte_of_string (DeriveUserKey ukd idB)) ->
  crossDecrypt ukd p idA idB = Ok p.
Proof.
  intros Hp Hfold.
  rewrite (crossDecrypt_eq ukd p idA idB Hp). cbv zeta.
  rewrite (cipherOf_aesKey _ _ Hfold).
  rewrite ecb_Decrypt_Encrypt by apply pad16_length.
  rewrite pkcs7Unpad_pad16. now rewrite string_of_list_byte_of_string.
Qed.

(** C3.  The code does not keep these two identities apart, although they
    differ and their derived keys differ.  With the deriver and the
    plaintext of the package's own test, the unsigned identities
    10000000000000002 and 20000000000000001 have derived keys that fold to
    one processed key (the first and the seventeenth digit of the identity
    meet in one byte of it), [EncryptForUser] returns one ciphertext for
    both, and [DecryptForUser] for the second identity turns what was
    encrypted for the first back into the plaintext, as it does for every
    other non-empty plaintext.  So the claim fails at this input, and with
    it what the test asserts: that decryption with a different user id does
    not return the original plaintext. *)
Theorem isolation_violated :
  ID_uint 10000000000000002 ≠ ID_uint 20000000000000001
  ∧ DeriveUserKey testDeriver (ID_uint 10000000000000002)
    = "S4ty7H3mhy9sdaP54TRVne6ABDSafKqZ10000000000000002:testsalt"
  ∧ DeriveUserKey testDeriver (ID_uint 20000000000000001)
    = "S4ty7H3mhy9sdaP54TRVne6ABDSafKqZ20000000000000001:testsalt"
  ∧ aesKey (list_byte_of_string
              (DeriveUserKey testDeriver (ID_uint 10000000000000002)))
    = aesKey (list_byte_of_string
                (DeriveUserKey testDeriver (ID_uint 20000000000000001)))
  ∧ EncryptForUser testDeriver "sensitive data" (ID_uint 10000000000000002)
    = EncryptForUser testDeriver "sensitive data" (ID_uint 20000000000000001)
  ∧ (∃ encrypted,
       EncryptForUser testDeriver "sensitive data" (ID_uint 10000000000000002)
       = Ok encrypted
       ∧ DecryptForUser testDeriver encrypted (ID_uint 20000000000000001)
         = Ok "sensitive data")
  ∧ (∀ p, p ≠ "" ->
          crossDecrypt testDeriver p (ID_uint 10000000000000002)
            (ID_uint 20000000000000001) = Ok p)
  ∧ ¬ (∀ (ukd : UserKeyDeriver) (p : string) (idA idB : userID),
         p ≠ "" -> idA ≠ idB -> DeriveUserKey ukd idA ≠ DeriveUserKey ukd idB ->
         failsWith (crossDecrypt ukd p idA idB) InvalidPadding
         ∨ ∃ q, crossDecrypt ukd p idA idB = Ok q ∧ q ≠ p).
Proof.
  set (idA := ID_uint 10000000000000002).
  set (idB := ID_uint 20000000000000001).
  assert (Hfold : aesKey (list_byte_of_string (DeriveUserKey testDeriver idA))
                  = aesKey (list_byte_of_string (DeriveUserKey testDeriver idB)))
    by (vm_compute; reflexivity).
  assert (Hall : ∀ p, p ≠ "" -> crossDecrypt testDeriver p idA idB = Ok p).
  { intros p Hp. now apply crossDecrypt_same_fold. }
  split; [discriminate|].
  split; [vm_compute; reflexivity|].
  split; [vm_compute; reflexivity|].
  split; [exact Hfold|].
  split; [vm_compute; reflexivity|].
  split.
  { specialize (Hall "sensitive data" ltac:(discriminate)).
    unfold crossDecrypt in Hall.
    destruct (EncryptForUser testDeriver "sensitive data" idA) as [c|e|];
      [|discriminate Hall ..].
    exists c. split; [reflexivity | exact Hall]. }
  split; [exact Hall|].
  intros H.
  assert (H1 : "sensitive data" ≠ "") by discriminate.
  assert (H2 : idA ≠ idB) by discriminate.
  assert (H3 : DeriveUserKey testDeriver idA ≠ DeriveUserKey testDeriver idB)
    by (intros Hk; vm_compute in Hk; discriminate).
  specialize (H testDeriver "sensitive data" idA idB H1 H2 H3).
  rewrite (Hall _ H1) in H.
  destruct H as [(e & He & _)|(q & Hq & Hne)].
  - discriminate He.
  - injection Hq as <-. now apply Hne.
Qed.

Lemma isolation_violated_witness :
  "secret" ≠ ""
  ∧ crossDecrypt testDeriver "secret" (ID_uint 10000000000000002)
      (ID_uint 20000000000000001) = Ok "secret".
Proof.
  split; [discriminate|].
  apply (proj1 (proj2 (proj2 (proj2 (proj2 (proj2 (proj2 isolation_violated))))))).
  discriminate.
Defined.

End Isolation.

(** * Further properties of the code *)

(** ** [Encrypt] and [Decrypt] beyond the round trip *)

Section MoreTransform.

Lemma Encrypt_Ok_inv (p k c : list byte) :
  Encrypt p k = Ok c -> p ≠ [] ∧ k ≠ [].
Proof.
  intros H. destruct p as [|b p]; [discriminate H|].
  destruct k as [|b' k]; [discriminate H|]. split; discriminate.
Qed.

Lemma Decrypt_Ok_inv (c k p : list byte) :
  Decrypt c k = Ok p -> c ≠ [] ∧ k ≠ [] ∧ length c mod 16 = 0.
Proof.
  intros H. destruct c as [|b c]; [discriminate H|].
  destruct k as [|b' k]; [discriminate H|].
  split; [discriminate|]. split; [discriminate|].
  destruct (decide (length (b :: c) mod 16 = 0)) as [|Hn]; [assumption|].
  rewrite Decrypt_partial_block in H by (assumption || discriminate).
  discriminate H.
Qed.

Lemma Decrypt_of_Encrypt (p k c : list byte) :
  Encrypt p k = Ok c -> Decrypt c k = Ok p.
Proof.
  intros H. destruct (Encrypt_Ok_inv _ _ _ H) as [Hp%length_nonzero Hk%length_nonzero].
  rewrite (Encrypt_Ok p k Hp Hk) in H. injection H as <-.
  set (n := length p / 16 + 1).
  rewrite (Decrypt_blocks _ k n); [| | lia | assumption].
  - rewrite ecb_Decrypt_Encrypt by apply pad16_length.
    now rewrite pkcs7Unpad_pad16.
  - apply ecb_Encrypt_length, pad16_length.
Qed.

(** What a successful [Decrypt] says about the decrypted blocks. *)
Lemma Decrypt_Ok_blocks (c k p : list byte) :
  Decrypt c k = Ok p ->
  ∃ m, 1 <= m <= 255
       ∧ ecb (length c / 16) (AES.Decrypt (cipherOf k)) c
         = p ++ replicate m (byte_of_Z (Z.of_nat m))
       ∧ length c = length p + m.
Proof.
  intros H. destruct (Decrypt_Ok_inv _ _ _ H) as (Hc%length_nonzero & Hk%length_nonzero & Hmod).
  rewrite (Decrypt_unpad c k Hc Hk Hmod) in H.
  destruct (pkcs7Unpad _) as [out|e|] eqn:Hu; try discriminate H.
  injection H as ->.
  apply pkcs7Unpad_Ok_inv in Hu as (m & Hm & Hdec).
  exists m. split; [exact Hm|]. split; [exact Hdec|].
  assert (Hlen : length (ecb (length c / 16) (AES.Decrypt (cipherOf k)) c)
                 = 16 * (length c / 16)).
  { apply ecb_Decrypt_length. pose proof (Nat.div_mod_eq (length c) 16). lia. }
  rewrite Hdec, length_app, length_replicate in Hlen.
  pose proof (Nat.div_mod_eq (length c) 16). lia.
Qed.

Lemma padLen_unique (n m q : nat) :
  1 <= m <= 16 -> n + m = 16 * q -> m = padLen n ∧ q = n / 16 + 1.
Proof.
  intros Hm Hq. unfold padLen.
  pose proof (Nat.div_mod_eq n 16). pose proof (Nat.mod_upper_bound n 16). lia.
Qed.

(** Encrypting again what [Decrypt] returned, when it removed at most one
    block of padding. *)
Lemma Encrypt_of_Decrypt (c k p : list byte) :
  Decrypt c k = Ok p -> p ≠ [] -> length c <= length p + 16 ->
  Encrypt p k = Ok c.
Proof.
  intros H Hp Hle. destruct (Decrypt_Ok_inv _ _ _ H) as (Hc & Hk & Hmod).
  destruct (Decrypt_Ok_blocks _ _ _ H) as (m & Hm & Hdec & Hlen).
  pose proof (Nat.div_mod_eq (length c) 16) as Hdiv.
  destruct (padLen_unique (length p) m (length c / 16)) as [-> Hq]; [lia | lia |].
  fold (pad16 p) in Hdec.
  rewrite Encrypt_Ok by now apply length_nonzero.
  f_equal. rewrite <- Hq, <- Hdec.
  apply ecb_Encrypt_Decrypt. lia.
Qed.


(** X2. Under one key, two plaintexts with the same ciphertext are the same
    plaintext. *)
Theorem Encrypt_injective (p p' k c : list byte) :
  Encrypt p k = Ok c -> Encrypt p' k = Ok c -> p = p'.
Proof.
  intros H H'. apply Decrypt_of_Encrypt in H, H'. congruence.
Qed.

Lemma Encrypt_injective_witness :
  Encrypt (list_byte_of_string "test") (list_byte_of_string "key")
  = Ok (hexBytes "9e9ce44cd9df2b201f51947e03bccbe2")
  ∧ list_byte_of_string "test" = list_byte_of_string "test".
Proof.
  assert (H : Encrypt (list_byte_of_string "test") (list_byte_of_string "key")
              = Ok (hexBytes "9e9ce44cd9df2b201f51947e03bccbe2"))
    by (vm_compute; reflexivity).
  split; [exact H|]. exact (Encrypt_injective _ _ _ _ H H).
Defined.

(** X3. A successful [Decrypt] returns fewer bytes than it was given, at
    most 255 fewer, from a ciphertext of whole blocks; and when it removed at
    most one block of padding from a non-empty plaintext, encrypting the
    result again gives the ciphertext back. *)
Theorem Decrypt_Ok_spec (c k p : list byte) :
  Decrypt c k = Ok p ->
  length c mod 16 = 0
  ∧ length p < length c <= length p + 255
  ∧ (p ≠ [] -> length c <= length p + 16 -> Encrypt p k = Ok c).
Proof.
  intros H. destruct (Decrypt_Ok_inv _ _ _ H) as (Hc & Hk & Hmod).
  destruct (Decrypt_Ok_blocks _ _ _ H) as (m & Hm & Hdec & Hlen).
  split; [exact Hmod|]. split; [lia|].
  now apply Encrypt_of_Decrypt.
Qed.

Lemma Decrypt_Ok_spec_witness :
  Decrypt (hexBytes "9e9ce44cd9df2b201f51947e03bccbe2") (list_byte_of_string "key")
  = Ok (list_byte_of_string "test")
  ∧ Encrypt (list_byte_of_string "test") (list_byte_of_string "key")
    = Ok (hexBytes "9e9ce44cd9df2b201f51947e03bccbe2").
Proof.
  assert (H : Decrypt (hexBytes "9e9ce44cd9df2b201f51947e03bccbe2")
                (list_byte_of_string "key") = Ok (list_byte_of_string "test"))
    by (vm_compute; reflexivity).
  split; [exact H|].
  apply (proj2 (proj2 (Decrypt_Ok_spec _ _ _ H))); [discriminate | vm_compute; lia].
Defined.

(** X4. Decrypting under another key returns the original plaintext exactly
    when that key encrypts the plaintext to the same ciphertext; otherwise
    the only outcomes are another plaintext or the padding error. *)
Theorem Decrypt_other_key (p k k' c : list byte) :
  Encrypt p k = Ok c -> k' ≠ [] ->
  (Decrypt c k' = Ok p ↔ Encrypt p k' = Ok c)
  ∧ ((∃ q, Decrypt c k' = Ok q)
     ∨ ∃ e, Decrypt c k' = Err (ErrorfW "failed to remove padding: %w" e)).
Proof.
  intros H Hk'. destruct (Encrypt_Ok_inv _ _ _ H) as [Hp Hk].
  assert (Hlen : length c = 16 * (length p / 16 + 1)).
  { rewrite Encrypt_Ok in H by now apply length_nonzero. injection H as <-.
    apply ecb_Encrypt_length, pad16_length. }
  split; [split|].
  - intros Hd. apply (Encrypt_of_Decrypt _ _ _ Hd); [exact Hp|]. pose proof (Nat.div_mod_eq (length p) 16).
    pose proof (Nat.mod_upper_bound (length p) 16). lia.
  - apply Decrypt_of_Encrypt.
  - rewrite (Decrypt_blocks c k' (length p / 16 + 1));
      [| exact Hlen | lia | now apply length_nonzero].
    destruct (pkcs7Unpad _) as [q|e|] eqn:Hu; [eauto | eauto |].
    destruct (pkcs7Unpad_cases
                (ecb (length p / 16 + 1) (AES.Decrypt (cipherOf k')) c))
      as [[out Ho]|[Ho|Ho]]; congruence.
Qed.

Lemma Decrypt_other_key_witness :
  Encrypt (list_byte_of_string "test") (list_byte_of_string "key")
  = Ok (hexBytes "9e9ce44cd9df2b201f51947e03bccbe2")
  ∧ list_byte_of_string "other" ≠ []
  ∧ ((∃ q, Decrypt (hexBytes "9e9ce44cd9df2b201f51947e03bccbe2")
             (list_byte_of_string "other") = Ok q)
     ∨ ∃ e, Decrypt (hexBytes "9e9ce44cd9df2b201f51947e03bccbe2")
              (list_byte_of_string "other")
            = Err (ErrorfW "failed to remove padding: %w" e)).
Proof.
  assert (H : Encrypt (list_byte_of_string "test") (list_byte_of_string "key")
              = Ok (hexBytes "9e9ce44cd9df2b201f51947e03bccbe2"))
    by (vm_compute; reflexivity).
  assert (H' : list_byte_of_string "other" ≠ []) by discriminate.
  split; [exact H|]. split; [exact H'|].
  exact (proj2 (Decrypt_other_key _ _ _ _ H H')).
Defined.

End MoreTransform.

(** ** Blocks are encrypted independently *)

Section BlockIndependence.

Lemma ecb_app (f : list byte -> option (list byte)) (m n : nat) (a b : list byte) :
  length a = 16 * m -> ecb (m + n) f (a ++ b) = ecb m f a ++ ecb n f b.
Proof.
  revert a. induction m as [|m IH]; intros a Hlen.
  - destruct a; [reflexivity | discriminate Hlen].
  - simpl ecb. rewrite take_app_le, drop_app_le by lia.
    rewrite IH by (rewrite length_drop; lia).
    now rewrite app_assoc.
Qed.

Lemma padLen_add (n m : nat) : n mod 16 = 0 -> padLen (n + m) = padLen m.
Proof.
  intros H. unfold padLen.
  now rewrite Nat.Div0.add_mod, H, Nat.add_0_l, Nat.Div0.mod_mod.
Qed.

Lemma pad16_app (a p : list byte) :
  length a mod 16 = 0 -> pad16 (a ++ p) = a ++ pad16 p.
Proof.
  intros H. unfold pad16. rewrite length_app, padLen_add by assumption.
  now rewrite app_assoc.
Qed.

Lemma Encrypt_app (a p k : list byte) :
  length a mod 16 = 0 -> p ≠ [] -> k ≠ [] ->
  Encrypt (a ++ p) k
  = Ok (ecb (length a / 16) (AES.Encrypt (cipherOf k)) a
        ++ ecb (length p / 16 + 1) (AES.Encrypt (cipherOf k)) (pad16 p)).
Proof.
  intros Ha Hp Hk.
  pose proof (Nat.div_mod_eq (length a) 16) as Hdiv.
  rewrite Encrypt_Ok.
  - f_equal. rewrite pad16_app by assumption.
    rewrite <- ecb_app by lia. f_equal.
    rewrite length_app.
    replace (length a + length p) with (length p + length a / 16 * 16) by lia.
    rewrite Nat.div_add by lia. lia.
  - rewrite length_app. apply length_nonzero in Hp. lia.
  - now apply length_nonzero.
Qed.

(** X5. When a plaintext starts with whole 16-byte blocks, the ciphertext is
    the encryption of these blocks, which has their length and does not
    depend on what follows, followed by the ciphertext [Encrypt] gives for the
    rest alone. *)
Theorem Encrypt_prefix_blocks (a p k : list byte) :
  length a mod 16 = 0 -> p ≠ [] -> k ≠ [] ->
  ∃ ca cp,
    Encrypt (a ++ p) k = Ok (ca ++ cp)
    ∧ Encrypt p k = Ok cp
    ∧ length ca = length a
    ∧ ∀ p', p' ≠ [] -> ∃ cp', Encrypt p' k = Ok cp'
                               ∧ Encrypt (a ++ p') k = Ok (ca ++ cp').
Proof.
  intros Ha Hp Hk.
  exists (ecb (length a / 16) (AES.Encrypt (cipherOf k)) a),
         (ecb (length p / 16 + 1) (AES.Encrypt (cipherOf k)) (pad16 p)).
  split; [now apply Encrypt_app|].
  split; [apply Encrypt_Ok; now apply length_nonzero|].
  split.
  - rewrite ecb_Encrypt_length; pose proof (Nat.div_mod_eq (length a) 16); lia.
  - intros p' Hp'. eexists. split; [apply Encrypt_Ok; now apply length_nonzero|].
    now apply Encrypt_app.
Qed.

Lemma Encrypt_prefix_blocks_witness :
  length (list_byte_of_string "0123456789abcdef") mod 16 = 0
  ∧ list_byte_of_string "test" ≠ []
  ∧ list_byte_of_string "key" ≠ []
  ∧ ∃ ca,
      Encrypt (list_byte_of_string "0123456789abcdef" ++ list_byte_of_string "test")
              (list_byte_of_string "key")
      = Ok (ca ++ hexBytes "9e9ce44cd9df2b201f51947e03bccbe2")
      ∧ length ca = 16.
Proof.
  split; [reflexivity|]. split; [discriminate|]. split; [discriminate|].
  destruct (Encrypt_prefix_blocks (list_byte_of_string "0123456789abcdef")
              (list_byte_of_string "test") (list_byte_of_string "key"))
    as (ca & cp & H1 & H2 & H3 & _); [reflexivity | discriminate | discriminate |].
  exists ca. split; [|exact H3].
  assert (Hcp : Encrypt (list_byte_of_string "test") (list_byte_of_string "key")
                = Ok (hexBytes "9e9ce44cd9df2b201f51947e03bccbe2"))
    by (vm_compute; reflexivity).
  rewrite H2 in Hcp. injection Hcp as <-. exact H1.
Defined.

(** [Encrypt_app] where the rest may be empty, for a non-empty plaintext. *)
Lemma Encrypt_app_blocks (a p k : list byte) :
  length a mod 16 = 0 -> a ++ p ≠ [] -> k ≠ [] ->
  Encrypt (a ++ p) k
  = Ok (ecb (length a / 16) (AES.Encrypt (cipherOf k)) a
        ++ ecb (length p / 16 + 1) (AES.Encrypt (cipherOf k)) (pad16 p)).
Proof.
  intros Ha Hap Hk.
  pose proof (Nat.div_mod_eq (length a) 16) as Hdiv.
  rewrite Encrypt_Ok.
  - f_equal. rewrite pad16_app by assumption.
    rewrite <- ecb_app by lia. f_equal.
    rewrite length_app.
    replace (length a + length p) with (length p + length a / 16 * 16) by lia.
    rewrite Nat.div_add by lia. lia.
  - now apply length_nonzero.
  - now apply length_nonzero.
Qed.

(** X6. Equal plaintext blocks give equal ciphertext blocks: a plaintext
    that starts with the same 16-byte block twice, whatever follows and also
    when nothing follows, has a ciphertext that starts with the same 16-byte
    block twice, and this block is the one the ciphertext starts with when
    the plaintext has the block once. *)
Theorem Encrypt_repeated_block (b p k : list byte) :
  length b = 16 -> k ≠ [] ->
  ∃ cb cp, length cb = 16
           ∧ Encrypt (b ++ b ++ p) k = Ok (cb ++ cb ++ cp)
           ∧ Encrypt (b ++ p) k = Ok (cb ++ cp).
Proof.
  intros Hb Hk.
  assert (Hne : ∀ q, b ++ q ≠ []) by (intros q; destruct b; discriminate).
  exists (ecb 1 (AES.Encrypt (cipherOf k)) b),
         (ecb (length p / 16 + 1) (AES.Encrypt (cipherOf k)) (pad16 p)).
  split; [now rewrite ecb_Encrypt_length by lia|].
  split.
  - rewrite (app_assoc b b p), Encrypt_app_blocks; try assumption.
    + rewrite length_app, Hb. change ((16 + 16) / 16) with (1 + 1).
      rewrite ecb_app by lia. now rewrite <- app_assoc.
    + now rewrite length_app, Hb.
    + rewrite <- app_assoc. apply Hne.
  - rewrite Encrypt_app_blocks; try assumption; [|now rewrite Hb | apply Hne].
    now rewrite Hb.
Qed.

Lemma Encrypt_repeated_block_witness :
  length (list_byte_of_string "0123456789abcdef") = 16
  ∧ list_byte_of_string "key" ≠ []
  ∧ ∃ cb cp, length cb = 16
             ∧ Encrypt (list_byte_of_string "0123456789abcdef"
                        ++ list_byte_of_string "0123456789abcdef" ++ [])
                       (list_byte_of_string "key")
               = Ok (cb ++ cb ++ cp)
             ∧ Encrypt (list_byte_of_string "0123456789abcdef" ++ [])
                       (list_byte_of_string "key")
               = Ok (cb ++ cp).
Proof.
  split; [reflexivity|]. split; [discriminate|].
  apply Encrypt_repeated_block; [reflexivity | discriminate].
Defined.

End BlockIndependence.

(** ** What key folding computes *)

Section FoldedKey.

Lemma list_eq_total (l1 l2 : list byte) (n : nat) :
  length l1 = n -> length l2 = n ->
  (∀ j, j < n -> l1 !!! j = l2 !!! j) -> l1 = l2.
Proof.
  intros H1 H2 H. apply list_eq_same_length with n; try assumption.
  intros i x y Hi Hx Hy.
  apply list_lookup_total_correct in Hx, Hy. rewrite <- Hx, <- Hy. now apply H.
Qed.

Lemma xorAll_snoc (l : list byte) (x : byte) :
  xorAll (l ++ [x]) = bxor (xorAll l) x.
Proof.
  unfold xorAll. induction l as [|y l IH]; simpl.
  - now rewrite bxor_0_l, bxor_0_r.
  - now rewrite IH, bxor_assoc.
Qed.

Lemma residues_S (n j : nat) :
  residues (S n) j
  = residues n j ++ (if decide (n mod 16 = j) then [n] else []).
Proof.
  unfold residues. rewrite seq_S, filter_app. reflexivity.
Qed.

Lemma residues_small (n j : nat) :
  n <= 16 -> residues n j = if decide (j < n) then [j] else [].
Proof.
  induction n as [|n IH]; intros Hn.
  - destruct (decide (j < 0)); [lia | reflexivity].
  - rewrite residues_S, IH by lia. rewrite (Nat.mod_small n 16) by lia.
    destruct (decide (j < n)), (decide (n = j)), (decide (j < S n));
      try lia; try reflexivity. now subst.
Qed.

(** After the folding steps [16], ..., [16 + m - 1], position [j] of the
    buffer holds the XOR of the key bytes met so far in its residue class. *)
Lemma foldl_foldStep_residues (key : list byte) (m j : nat) :
  16 <= length key -> j < 16 ->
  foldl (foldStep key) (take 16 key) (seq 16 m) !!! j
  = xorAll (map (fun i => key !!! i) (residues (16 + m) j)).
Proof.
  intros Hlen Hj. induction m as [|m IH].
  - rewrite Nat.add_0_r, residues_small by lia.
    destruct (decide (j < 16)); [|lia]. simpl.
    rewrite lookup_total_take_lt by lia. unfold xorAll. simpl.
    now rewrite bxor_0_r.
  - rewrite seq_S, foldl_app.
    replace (16 + S m) with (S (16 + m)) by lia.
    rewrite residues_S, map_app.
    set (buf := foldl (foldStep key) (take 16 key) (seq 16 m)) in *.
    assert (Hbuf : length buf = 16).
    { unfold buf. rewrite foldl_foldStep_length, length_take. lia. }
    change (foldl (foldStep key) buf [16 + m]) with (foldStep key buf (16 + m)).
    unfold foldStep.
    pose proof (Nat.mod_upper_bound (16 + m) 16 ltac:(lia)) as Hr.
    destruct (decide ((16 + m) mod 16 = j)) as [<-|Hne].
    + rewrite list_lookup_total_insert_eq by lia.
      simpl map. rewrite xorAll_snoc, IH by lia. reflexivity.
    + rewrite list_lookup_total_insert_ne by assumption.
      simpl map. rewrite app_nil_r. apply IH.
Qed.

(** Byte [j] of the processed key, for a key of any length. *)
Lemma aesKey_lookup (key : list byte) (j : nat) :
  j < 16 ->
  aesKey key !!! j = xorAll (map (fun i => key !!! i) (residues (length key) j)).
Proof.
  intros Hj. rewrite aesKey_fold_key. unfold fold_key.
  destruct (decide (length key = 16)) as [H16|Hn16].
  - rewrite H16, residues_small by lia.
    destruct (decide (j < 16)); [|lia]. unfold xorAll. simpl.
    now rewrite bxor_0_r.
  - destruct (decide (length key < 16)) as [Hlt|Hge].
    + replace (length key - 16) with 0 by lia. simpl foldl.
      rewrite take_ge, residues_small by lia.
      destruct (decide (j < length key)).
      * rewrite lookup_total_app_l by lia. unfold xorAll. simpl.
        now rewrite bxor_0_r.
      * rewrite lookup_total_app_r by lia.
        rewrite lookup_total_replicate_2 by lia. reflexivity.
    + replace (16 - length key) with 0 by lia. simpl replicate.
      rewrite app_nil_r, foldl_foldStep_residues by lia.
      now replace (16 + (length key - 16)) with (length key) by lia.
Qed.

(** X7. Whatever the length of the key, byte [j] of the processed key is the
    XOR of the key bytes at the positions congruent to [j] modulo 16 (the
    zero byte when there is none), for each [j] below 16. *)
Theorem aesKey_residues (key : list byte) :
  aesKey key
  = map (fun j => xorAll (map (fun i => key !!! i) (residues (length key) j)))
        (seq 0 16).
Proof.
  apply list_eq_total with 16.
  - apply aesKey_length.
  - now rewrite length_map, length_seq.
  - intros j Hj. rewrite aesKey_lookup by assumption.
    do 16 (destruct j as [|j]; [reflexivity|]). lia.
Qed.

Lemma lookup_total_zip_bxor (a b : list byte) (j : nat) :
  j < length a -> j < length b ->
  zip_with bxor a b !!! j = bxor (a !!! j) (b !!! j).
Proof. apply lookup_total_zip_with. Qed.

Lemma residues_32 (j : nat) : j < 16 -> residues 32 j = [j; 16 + j].
Proof.
  intros Hj.
  do 16 (destruct j as [|j]; [reflexivity|]). lia.
Qed.

(** X8. A 32-byte key folds to the XOR of its two halves, so encrypting
    under it is encrypting under that 16-byte key; a 16-byte key written
    twice folds to sixteen zero bytes, whatever the key. *)
Theorem aesKey_two_halves (a b : list byte) :
  length a = 16 -> length b = 16 ->
  aesKey (a ++ b) = zip_with bxor a b
  ∧ (∀ p, Encrypt p (a ++ b) = Encrypt p (zip_with bxor a b))
  ∧ (a = b -> aesKey (a ++ b) = replicate 16 x00).
Proof.
  intros Ha Hb.
  assert (Hfold : aesKey (a ++ b) = zip_with bxor a b).
  { apply list_eq_total with 16.
    - apply aesKey_length.
    - rewrite length_zip_with. lia.
    - intros j Hj. rewrite aesKey_lookup by assumption.
      rewrite length_app, Ha, Hb. change (16 + 16) with 32.
      rewrite residues_32 by assumption. unfold xorAll. cbn [map foldr].
      rewrite bxor_0_r, lookup_total_app_l, lookup_total_app_r by lia.
      rewrite Ha. replace (16 + j - 16) with j by lia.
      rewrite lookup_total_zip_bxor by lia. reflexivity. }
  split; [exact Hfold|]. split.
  - intros p. rewrite Encrypt_key_folded by (destruct a; discriminate).
    rewrite Hfold. reflexivity.
  - intros <-. rewrite Hfold. apply list_eq_total with 16.
    + rewrite length_zip_with. lia.
    + apply length_replicate.
    + intros j Hj. rewrite lookup_total_zip_bxor by lia.
      rewrite bxor_nilpotent. now rewrite lookup_total_replicate_2.
Qed.

Lemma aesKey_two_halves_witness :
  length (list_byte_of_string "abcdefghijklmnop") = 16
  ∧ aesKey (list_byte_of_string "abcdefghijklmnop"
            ++ list_byte_of_string "abcdefghijklmnop")
    = replicate 16 x00.
Proof.
  split; [reflexivity|].
  apply (aesKey_two_halves (list_byte_of_string "abcdefghijklmnop")
           (list_byte_of_string "abcdefghijklmnop")); reflexivity.
Defined.

Lemma Decrypt_key_congr (d k k' : list byte) :
  k ≠ [] -> k' ≠ [] -> aesKey k = aesKey k' -> Decrypt d k = Decrypt d k'.
Proof.
  intros Hk Hk' Hfold. destruct d as [|b d]; [reflexivity|].
  destruct (decide (length (b :: d) mod 16 = 0)) as [Hm|Hm].
  - rewrite !Decrypt_unpad by (assumption || (apply length_nonzero; assumption)
                               || discriminate).
    now rewrite (cipherOf_aesKey _ _ Hfold).
  - now rewrite !Decrypt_partial_block by (assumption || discriminate).
Qed.

(** X9. Two non-empty keys with the same folding are interchangeable: they
    give [Encrypt] and [Decrypt] the same results on every input.  So a key
    can be replaced by its folding, and a key shorter than 16 bytes by itself
    with a zero byte appended. *)
Theorem equivalent_keys (k k' : list byte) :
  k ≠ [] -> k' ≠ [] ->
  (aesKey k = aesKey k' ->
   ∀ d, Encrypt d k = Encrypt d k' ∧ Decrypt d k = Decrypt d k')
  ∧ (∀ d, Encrypt d k = Encrypt d (aesKey k) ∧ Decrypt d k = Decrypt d (aesKey k))
  ∧ (length k < 16 ->
     ∀ d, Encrypt d (k ++ [x00]) = Encrypt d k
          ∧ Decrypt d (k ++ [x00]) = Decrypt d k).
Proof.
  intros Hk Hk'.
  assert (Hcongr : ∀ a b, a ≠ [] -> b ≠ [] -> aesKey a = aesKey b ->
                          ∀ d, Encrypt d a = Encrypt d b ∧ Decrypt d a = Decrypt d b).
  { intros a b Ha Hb Hfold d. split; [|now apply Decrypt_key_congr].
    rewrite (Encrypt_key_folded d a Ha), (Encrypt_key_folded d b Hb).
    now rewrite Hfold. }
  assert (Hidem : aesKey (aesKey k) = aesKey k).
  { unfold aesKey at 1. rewrite aesKey_length.
    destruct (decide (16 = keyLen)) as [_|Hn]; [reflexivity | now destruct Hn]. }
  split; [now apply Hcongr|]. split.
  - apply Hcongr; [assumption | | now rewrite Hidem].
    intros H. pose proof (aesKey_length k) as Hl. rewrite H in Hl. discriminate Hl.
  - intros Hlt. apply Hcongr; [now destruct k | assumption |].
    rewrite (aesKey_short k Hlt).
    destruct (decide (length k = 15)) as [H15|H15].
    + unfold aesKey. rewrite length_app, H15. simpl length.
      destruct (decide (15 + 1 = keyLen)) as [_|Hn]; [|now destruct Hn].
      reflexivity.
    + rewrite aesKey_short by (rewrite length_app; simpl; lia).
      rewrite length_app. simpl length. rewrite <- app_assoc. f_equal.
      replace (16 - length k) with (S (16 - (length k + 1))) by lia.
      reflexivity.
Qed.

Lemma equivalent_keys_witness :
  list_byte_of_string "key" ≠ []
  ∧ length (list_byte_of_string "key") < 16
  ∧ Encrypt (list_byte_of_string "test") (list_byte_of_string "key" ++ [x00])
    = Encrypt (list_byte_of_string "test") (list_byte_of_string "key").
Proof.
  split; [discriminate|]. split; [vm_compute; lia|].
  apply (proj2 (proj2 (equivalent_keys (list_byte_of_string "key")
                         (list_byte_of_string "key")
                         ltac:(discriminate) ltac:(discriminate)))).
  vm_compute; lia.
Defined.

End FoldedKey.

(** ** PKCS#7 in full *)

Section MorePadding.

Lemma byte_of_Z_mod (n : Z) : byte_of_Z (n mod 256) = byte_of_Z n.
Proof. unfold byte_of_Z. now rewrite Z.mod_mod by lia. Qed.

(** X10. [pkcs7Unpad] succeeds with [out] exactly on the inputs made of
    [out] followed by [n] bytes of value [n], for some [n] from 1 to 255; it
    reports "data is empty" exactly on the empty input, and "invalid padding"
    on every other input. *)
Theorem pkcs7Unpad_iff (data : list byte) :
  (∀ out, pkcs7Unpad data = Ok out
          ↔ ∃ n, 1 <= n <= 255 ∧ data = out ++ replicate n (byte_of_Z (Z.of_nat n)))
  ∧ (pkcs7Unpad data = Err (Errorf "data is empty") ↔ data = [])
  ∧ ((∃ out, pkcs7Unpad data = Ok out)
     ∨ data = []
     ∨ pkcs7Unpad data = Err (Errorf "invalid padding")).
Proof.
  split; [|split].
  - intros out. split; [apply pkcs7Unpad_Ok_inv|].
    intros (n & Hn & ->). now apply pkcs7Unpad_app.
  - split.
    + unfold pkcs7Unpad. destruct (decide (length data = 0)) as [H0|Hn0].
      * intros _. now destruct data.
      * destruct (decide _); [discriminate|].
        destruct (verifyPadding _ _ _); discriminate.
    + now intros ->.
  - destruct (pkcs7Unpad_cases data) as [H|[H|H]]; [auto | | auto].
    right; left. unfold pkcs7Unpad in H.
    destruct (decide (length data = 0)) as [H0|Hn0]; [now destruct data|].
    destruct (decide _); [discriminate|].
    destruct (verifyPadding _ _ _); discriminate.
Qed.

(** X11. For every positive block size, [pkcs7Pad] appends
    [blockSize - len(data) % blockSize] bytes, between 1 and [blockSize] of
    them, and brings the length to a multiple of the block size.
    [pkcs7Unpad] gives the data back exactly when at most 255 bytes were
    appended, so always for a block size up to 255: beyond that the pad byte
    no longer holds the pad length. *)
Theorem pkcs7Pad_any_block_size (data : list byte) (blockSize : Z) :
  (0 < blockSize)%Z ->
  ∃ padded (padding : nat),
    pkcs7Pad data blockSize = Some padded
    ∧ Z.of_nat padding = (blockSize - len data mod blockSize)%Z
    ∧ (1 <= Z.of_nat padding <= blockSize)%Z
    ∧ padded = data ++ replicate padding (byte_of_Z (Z.of_nat padding))
    ∧ (len padded mod blockSize = 0)%Z
    ∧ (pkcs7Unpad padded = Ok data ↔ padding <= 255).
Proof.
  intros Hbs. unfold pkcs7Pad, len.
  destruct (decide (blockSize <= 0)%Z) as [Hle0|_]; [lia|].
  rewrite Z.rem_mod_nonneg by lia.
  set (r := (Z.of_nat (length data) mod blockSize)%Z).
  assert (Hr : (0 <= r < blockSize)%Z) by (apply Z.mod_pos_bound; lia).
  exists (data ++ replicate (Z.to_nat (blockSize - r)) (byte_of_Z (blockSize - r))),
         (Z.to_nat (blockSize - r)).
  rewrite Z2Nat.id by lia.
  split; [reflexivity|]. split; [reflexivity|]. split; [lia|].
  split; [reflexivity|]. split.
  - rewrite length_app, length_replicate, Nat2Z.inj_add, Z2Nat.id by lia.
    pose proof (Z.div_mod (Z.of_nat (length data)) blockSize ltac:(lia)) as Hdm.
    fold r in Hdm.
    replace (Z.of_nat (length data) + (blockSize - r))%Z
      with ((Z.of_nat (length data) / blockSize + 1) * blockSize)%Z by lia.
    apply Z_mod_mult.
  - split.
    + intros Hu. apply pkcs7Unpad_Ok_inv in Hu as (n & Hn & Heq).
      apply app_inv_head in Heq.
      apply (f_equal length) in Heq. rewrite !length_replicate in Heq. lia.
    + intros Hle.
      rewrite <- (Z2Nat.id (blockSize - r)) at 2 by lia.
      apply pkcs7Unpad_app. lia.
Qed.

Lemma pkcs7Pad_any_block_size_witness :
  (0 < 8)%Z
  ∧ pkcs7Pad (list_byte_of_string "Hello") 8
    = Some (list_byte_of_string "Hello" ++ replicate 3 x03)
  ∧ pkcs7Unpad (list_byte_of_string "Hello" ++ replicate 3 x03)
    = Ok (list_byte_of_string "Hello").
Proof.
  split; [lia|].
  destruct (pkcs7Pad_any_block_size (list_byte_of_string "Hello") 8 ltac:(lia))
    as (padded & padding & Hp & Hn & _ & Heq & _ & Hu).
  assert (padding = 3) as ->.
  { change (8 - len (list_byte_of_string "Hello") mod 8)%Z with 3%Z in Hn. lia. }
  change (byte_of_Z (Z.of_nat 3)) with x03 in Heq. subst padded.
  split; [exact Hp|]. apply Hu. lia.
Defined.

End MorePadding.

(** ** The text interface *)

Section MoreText.

Lemma string_of_list_byte_length (l : list byte) :
  String.length (string_of_list_byte l) = length l.
Proof.
  rewrite <- list_byte_of_string_length.
  now rewrite list_byte_of_string_of_list_byte.
Qed.

Lemma DecryptString_of_EncryptString (p k c : string) :
  EncryptString p k = Ok c -> DecryptString c k = Ok p.
Proof.
  unfold EncryptString.
  destruct (Encrypt _ _) as [enc|e|] eqn:He; try discriminate.
  intros [= <-]. rewrite DecryptString_hex.
  rewrite (Decrypt_of_Encrypt _ _ _ He).
  now rewrite string_of_list_byte_of_string.
Qed.

(** X12. Text round trip: for a non-empty text and a non-empty key,
    [EncryptString] succeeds and [DecryptString] of its result under the same
    key returns the text; likewise [DecryptForUser] returns what
    [EncryptForUser] was given for the same user, whatever the base key and
    the salt. *)
Theorem text_round_trip :
  (∀ p k, p ≠ "" -> k ≠ "" ->
          ∃ c, EncryptString p k = Ok c ∧ DecryptString c k = Ok p)
  ∧ (∀ ukd p id, p ≠ "" ->
                 ∃ c, EncryptForUser ukd p id = Ok c
                      ∧ DecryptForUser ukd c id = Ok p).
Proof.
  assert (H : ∀ p k, p ≠ "" -> k ≠ "" ->
                     ∃ c, EncryptString p k = Ok c ∧ DecryptString c k = Ok p).
  { intros p k Hp Hk. eexists. split; [now apply EncryptString_Ok|].
    apply DecryptString_of_EncryptString. now apply EncryptString_Ok. }
  split; [exact H|].
  intros ukd p id Hp. unfold EncryptForUser, DecryptForUser. cbv zeta.
  apply H; [exact Hp | apply DeriveUserKey_nonempty].
Qed.

Lemma text_round_trip_witness :
  "Confidential business data" ≠ ""
  ∧ "my-secret-key-2024" ≠ ""
  ∧ (∃ c, EncryptString "Confidential business data" "my-secret-key-2024" = Ok c
          ∧ DecryptString c "my-secret-key-2024" = Ok "Confidential business data")
  ∧ ∃ c, EncryptForUser (NewUserKeyDeriver "base_key_2024" "app_salt")
           "sensitive user information" (ID_string "tenant_abc") = Ok c
         ∧ DecryptForUser (NewUserKeyDeriver "base_key_2024" "app_salt") c
             (ID_string "tenant_abc")
           = Ok "sensitive user information".
Proof.
  split; [discriminate|]. split; [discriminate|]. split.
  - apply (proj1 text_round_trip); discriminate.
  - apply (proj2 text_round_trip). discriminate.
Defined.

Lemma Encode_byte_lower (v : byte) : Forall isLowerHex (Hex.Encode [v]).
Proof. destruct v; apply (bool_decide_unpack _); vm_compute; exact I. Qed.

Lemma Encode_lower (src : list byte) : Forall isLowerHex (Hex.Encode src).
Proof.
  induction src as [|v src IH]; [constructor|].
  rewrite Encode_cons. apply Forall_app. split; [apply Encode_byte_lower | exact IH].
Qed.

(** What [EncryptString] returns is the hex encoding of whole blocks. *)
Lemma EncryptString_Ok_hex (p k c : string) :
  EncryptString p k = Ok c ->
  ∃ enc, c = Hex.EncodeToString enc
         ∧ length enc = 16 * (String.length p / 16 + 1).
Proof.
  intros H.
  assert (Hp : p ≠ "") by (intros ->; discriminate H).
  assert (Hk : k ≠ "").
  { intros ->. destruct p; [congruence | discriminate H]. }
  rewrite (EncryptString_Ok p k Hp Hk) in H.
  set (enc := ecb (String.length p / 16 + 1)
                  (AES.Encrypt (cipherOf (list_byte_of_string k)))
                  (pad16 (list_byte_of_string p))) in H.
  assert (Henc : length enc = 16 * (String.length p / 16 + 1)).
  { unfold enc. rewrite ecb_Encrypt_length; [reflexivity|].
    rewrite pad16_length. now rewrite list_byte_of_string_length. }
  clearbody enc. injection H as <-. now exists enc.
Qed.

(** X13. The hex text [EncryptString] returns has 32 characters for every
    16 bytes of plaintext begun, plus 32 when the plaintext is a whole number
    of blocks, so never fewer than 32; all of them are digits or lower-case
    letters [a] to [f]; and [hex.DecodeString] accepts it. *)
Theorem EncryptString_shape (p k c : string) :
  EncryptString p k = Ok c ->
  String.length c = 32 * (String.length p / 16 + 1)
  ∧ 32 <= String.length c
  ∧ Forall isLowerHex (list_byte_of_string c)
  ∧ (Hex.DecodeString c).2 = None.
Proof.
  intros H. apply EncryptString_Ok_hex in H as (enc & -> & Henc).
  assert (Hlen : String.length (Hex.EncodeToString enc)
                 = 32 * (String.length p / 16 + 1)).
  { unfold Hex.EncodeToString.
    rewrite string_of_list_byte_length, Encode_length, Henc. lia. }
  split; [exact Hlen|]. split; [rewrite Hlen; lia|]. split.
  - unfold Hex.EncodeToString. rewrite list_byte_of_string_of_list_byte.
    apply Encode_lower.
  - now rewrite DecodeString_EncodeToString.
Qed.

Lemma EncryptString_shape_witness :
  EncryptString "test" "key" = Ok "9e9ce44cd9df2b201f51947e03bccbe2"
  ∧ String.length "9e9ce44cd9df2b201f51947e03bccbe2" = 32 * (String.length "test" / 16 + 1).
Proof.
  assert (H : EncryptString "test" "key" = Ok "9e9ce44cd9df2b201f51947e03bccbe2")
    by (vm_compute; reflexivity).
  split; [exact H|]. exact (proj1 (EncryptString_shape _ _ _ H)).
Defined.

Lemma fromHexChar_upper (c : byte) :
  Hex.fromHexChar (upperByte c) = Hex.fromHexChar c.
Proof. destruct c; reflexivity. Qed.

Lemma Decode_upper (n : nat) (src : list byte) :
  length src <= n ->
  (Hex.Decode (map upperByte src)).1 = (Hex.Decode src).1
  ∧ ((Hex.Decode (map upperByte src)).2 = None ↔ (Hex.Decode src).2 = None).
Proof.
  revert src. induction n as [|n IH]; intros src Hlen.
  - destruct src; [|simpl in Hlen; lia]. split; reflexivity.
  - destruct src as [|p [|q rest]].
    + split; reflexivity.
    + cbn [map Hex.Decode]. rewrite fromHexChar_upper.
      destruct (Hex.fromHexChar p); simpl; split; try reflexivity;
        split; discriminate.
    + cbn [map Hex.Decode]. rewrite !fromHexChar_upper.
      destruct (Hex.fromHexChar p) as [a|];
        [|simpl; split; [reflexivity | split; discriminate]].
      destruct (Hex.fromHexChar q) as [b|];
        [|simpl; split; [reflexivity | split; discriminate]].
      destruct (IH rest ltac:(simpl in Hlen; lia)) as [H1 H2].
      destruct (Hex.Decode (map upperByte rest)) as [o1 e1].
      destruct (Hex.Decode rest) as [o2 e2]. simpl in *.
      split; [now rewrite H1 | exact H2].
Qed.

Lemma list_byte_of_upperString (s : string) :
  list_byte_of_string (upperString s) = map upperByte (list_byte_of_string s).
Proof. unfold upperString. apply list_byte_of_string_of_list_byte. Qed.

(** X14. [DecryptString] does not depend on the case of the hex digits:
    when the text decodes without error, its upper-case form gives the same
    result; when it does not, the upper-case form is rejected as invalid hex
    as well.  So the upper-case rendering of what [EncryptString] returned
    decrypts to the plaintext. *)
Theorem DecryptString_case_insensitive (s key : string) :
  ((Hex.DecodeString s).2 = None ->
   DecryptString (upperString s) key = DecryptString s key)
  ∧ ((Hex.DecodeString s).2 ≠ None ->
     failsWith (DecryptString (upperString s) key) InvalidEncoding
     ∧ failsWith (DecryptString s key) InvalidEncoding)
  ∧ (∀ p, EncryptString p key = Ok s ->
          DecryptString (upperString s) key = Ok p).
Proof.
  destruct (Decode_upper _ (list_byte_of_string s) (le_n _)) as [H1 H2].
  assert (Hsame : (Hex.DecodeString s).2 = None ->
                  DecryptString (upperString s) key = DecryptString s key).
  { intros Hnone. unfold DecryptString, Hex.DecodeString in *.
    rewrite list_byte_of_upperString.
    apply H2 in Hnone as Hup.
    destruct (Hex.Decode (map upperByte (list_byte_of_string s))) as [o1 e1].
    destruct (Hex.Decode (list_byte_of_string s)) as [o2 e2].
    simpl in *. subst. reflexivity. }
  split; [exact Hsame|]. split.
  - intros Herr. unfold DecryptString, Hex.DecodeString in *.
    rewrite list_byte_of_upperString.
    destruct (Hex.Decode (map upperByte (list_byte_of_string s))) as [o1 e1].
    destruct (Hex.Decode (list_byte_of_string s)) as [o2 e2].
    simpl in *. destruct e2 as [e2|]; [|congruence].
    destruct e1 as [e1|]; [|destruct H2 as [H2 _]; discriminate (H2 eq_refl)].
    split; eexists; split; reflexivity.
  - intros p Hp. rewrite Hsame.
    + now apply DecryptString_of_EncryptString.
    + apply EncryptString_Ok_hex in Hp as (enc & -> & _).
      now rewrite DecodeString_EncodeToString.
Qed.

Lemma DecryptString_case_insensitive_witness :
  (Hex.DecodeString "9e9ce44cd9df2b201f51947e03bccbe2").2 = None
  ∧ upperString "9e9ce44cd9df2b201f51947e03bccbe2" = "9E9CE44CD9DF2B201F51947E03BCCBE2"
  ∧ DecryptString (upperString "9e9ce44cd9df2b201f51947e03bccbe2") "key"
    = DecryptString "9e9ce44cd9df2b201f51947e03bccbe2" "key".
Proof.
  split; [reflexivity|]. split; [reflexivity|].
  apply (proj1 (DecryptString_case_insensitive _ _)). reflexivity.
Defined.

End MoreText.

(** ** Derived keys *)

Section MoreKeys.

Lemma string_app_inv_head (a x y : string) :
  (a ++ x = a ++ y)%string -> x = y.
Proof.
  induction a as [|c a IH]; simpl; intros H; [exact H|].
  injection H as H. now apply IH.
Qed.

Lemma string_app_inv_tail (x y c : string) :
  (x ++ c = y ++ c)%string -> x = y.
Proof.
  intros H.
  assert (Hlen : String.length x = String.length y).
  { apply (f_equal String.length) in H. rewrite !string_app_length in H. lia. }
  revert y H Hlen. induction x as [|a x IH]; intros [|b y] H Hlen;
    try discriminate Hlen; [reflexivity|].
  simpl in H. injection H as -> H. f_equal. apply IH; [exact H|].
  simpl in Hlen. lia.
Qed.

Lemma FormatUint_inj (a b : N) :
  strconv.FormatUint a = strconv.FormatUint b -> a = b.
Proof.
  intros H. pose proof (FormatUint_decimal a) as Ha.
  rewrite H, FormatUint_decimal in Ha. congruence.
Qed.

Lemma FormatInt_inj (a b : Z) :
  strconv.FormatInt a = strconv.FormatInt b -> a = b.
Proof.
  intros H.
  pose proof (FormatInt_decimal a) as Ha. pose proof (FormatInt_decimal b) as Hb.
  destruct (decide (a < 0)%Z) as [Han|Hap], (decide (b < 0)%Z) as [Hbn|Hbp].
  - destruct Ha as (s & Hs & Hv), Hb as (t & Ht & Hw).
    rewrite Hs, Ht in H. injection H as ->. rewrite Hv in Hw. injection Hw. lia.
  - destruct Ha as (s & Hs & _). rewrite <- H, Hs in Hb. discriminate Hb.
  - destruct Hb as (t & Ht & _). rewrite H, Ht in Ha. discriminate Ha.
  - rewrite H, Hb in Ha. injection Ha. lia.
Qed.

(** X15. Within one deriver two identities get the same key exactly when
    the type switch renders them to the same text.  So different unsigned
    integers get different keys, as do different signed integers and
    different strings, while an unsigned integer, the signed integer of the
    same value and the string of its decimal digits all get one key. *)
Theorem DeriveUserKey_injective (ukd : UserKeyDeriver) :
  (∀ idA idB,
     DeriveUserKey ukd idA = DeriveUserKey ukd idB ↔ userIDStr idA = userIDStr idB)
  ∧ (∀ a b, DeriveUserKey ukd (ID_uint a) = DeriveUserKey ukd (ID_uint b) -> a = b)
  ∧ (∀ a b, DeriveUserKey ukd (ID_uint64 a) = DeriveUserKey ukd (ID_uint64 b) -> a = b)
  ∧ (∀ a b, DeriveUserKey ukd (ID_int a) = DeriveUserKey ukd (ID_int b) -> a = b)
  ∧ (∀ a b, DeriveUserKey ukd (ID_int64 a) = DeriveUserKey ukd (ID_int64 b) -> a = b)
  ∧ (∀ a b, DeriveUserKey ukd (ID_string a) = DeriveUserKey ukd (ID_string b) -> a = b)
  ∧ (∀ v, DeriveUserKey ukd (ID_uint64 v) = DeriveUserKey ukd (ID_uint v)
          ∧ DeriveUserKey ukd (ID_int (Z.of_N v)) = DeriveUserKey ukd (ID_uint v)
          ∧ ∃ s, decimalValue s = Some v
                 ∧ DeriveUserKey ukd (ID_string s) = DeriveUserKey ukd (ID_uint v)).
Proof.
  assert (Hiff : ∀ idA idB, DeriveUserKey ukd idA = DeriveUserKey ukd idB
                            ↔ userIDStr idA = userIDStr idB).
  { intros idA idB. unfold DeriveUserKey. split; [|now intros ->].
    intros H. apply string_app_inv_head in H. now apply string_app_inv_tail in H. }
  assert (Hint : ∀ v, strconv.FormatInt (Z.of_N v) = strconv.FormatUint v).
  { intros v. unfold strconv.FormatInt, strconv.FormatUint.
    destruct (decide (Z.of_N v < 0)%Z); [lia|]. now rewrite N2Z.id. }
  split; [exact Hiff|].
  split; [intros a b H%Hiff; now apply FormatUint_inj|].
  split; [intros a b H%Hiff; now apply FormatUint_inj|].
  split; [intros a b H%Hiff; now apply FormatInt_inj|].
  split; [intros a b H%Hiff; now apply FormatInt_inj|].
  split; [intros a b H%Hiff; exact H|].
  intros v. split; [now apply Hiff|]. split.
  - apply Hiff. simpl. unfold strconv.Itoa. apply Hint.
  - exists (strconv.FormatUint v). split; [apply FormatUint_decimal|].
    now apply Hiff.
Qed.

Lemma DeriveUserKey_injective_witness :
  DeriveUserKey testDeriver (ID_uint 12345)
  = DeriveUserKey testDeriver (ID_string "12345")
  ∧ userIDStr (ID_uint 12345) = userIDStr (ID_string "12345").
Proof.
  assert (H : DeriveUserKey testDeriver (ID_uint 12345)
              = DeriveUserKey testDeriver (ID_string "12345"))
    by (vm_compute; reflexivity).
  split; [exact H|].
  exact (proj1 (proj1 (DeriveUserKey_injective testDeriver) _ _) H).
Defined.

(** X16. Nothing separates the base key from the identity, and the [:]
    before the salt may as well occur in the identity: moving text across
    either border gives another deriver and another string identity with the
    same derived key. *)
Theorem DeriveUserKey_borders (base salt x y : string) :
  DeriveUserKey (NewUserKeyDeriver (base ++ x) salt) (ID_string y)
  = DeriveUserKey (NewUserKeyDeriver base salt) (ID_string (x ++ y))
  ∧ DeriveUserKey (NewUserKeyDeriver base (x ++ ":" ++ salt)) (ID_string y)
    = DeriveUserKey (NewUserKeyDeriver base salt) (ID_string (y ++ ":" ++ x)).
Proof.
  unfold DeriveUserKey. simpl. split.
  - now rewrite !string_app_assoc.
  - now rewrite !string_app_assoc.
Qed.

End MoreKeys.

(** ** The ECB block modes *)

Section BlockModes.

Lemma cryptLoop_step (n : nat)
    (crypt : list byte -> list byte -> option (list byte)) (dst src : list byte) :
  cryptLoop n crypt dst src
  = if decide (0 < length src) then
      match slice src 0 (S n) with
      | None => None
      | Some block =>
          match crypt dst block with
          | None => None
          | Some dst' =>
              match slice dst' (S n) (length dst') with
              | None => None
              | Some dst'' =>
                  match cryptLoop n crypt dst'' (drop (S n) src) with
                  | None => None
                  | Some rest => Some (take (S n) dst' ++ rest)
                  end
              end
          end
      end
    else Some dst.
Proof.
  rewrite cryptLoop_equation_1.
  destruct (decide (0 < length src));
    [apply cryptLoop_clause_1_equation_1 | apply cryptLoop_clause_1_equation_2].
Qed.

(** The loop with a block function that, like the AES block, overwrites the
    first 16 bytes of its destination with [f] of its source block. *)
Lemma cryptLoop_ecb (f : list byte -> option (list byte))
    (crypt : list byte -> list byte -> option (list byte)) (m : nat)
    (dst src : list byte) :
  (∀ s, length s = 16 -> ∃ out, f s = Some out ∧ length out = 16) ->
  (∀ d s, crypt d s = if decide (length d < 16) then None
                      else out ← f s; Some (out ++ drop 16 d)) ->
  length src = 16 * m -> length src <= length dst ->
  cryptLoop 15 crypt dst src = Some (ecb m f src ++ drop (length src) dst).
Proof.
  intros Hfull Hcrypt. revert dst src.
  induction m as [|m IH]; intros dst src Hsrc Hdst; rewrite cryptLoop_step.
  - destruct (decide (0 < length src)); [lia|].
    destruct src; [|discriminate Hsrc]. reflexivity.
  - destruct (decide (0 < length src)); [|lia].
    unfold slice. destruct (decide (0 <= 16 <= length src)); [|lia].
    rewrite drop_0. change (16 - 0) with 16.
    destruct (Hfull (take 16 src)) as (out & Hout & Hlen).
    { rewrite length_take. lia. }
    rewrite Hcrypt. destruct (decide (length dst < 16)); [lia|].
    rewrite Hout. simpl.
    assert (Hd : length (out ++ drop 16 dst) = length dst).
    { rewrite length_app, length_drop. lia. }
    rewrite Hd. destruct (decide (16 <= length dst <= length dst)); [|lia].
    rewrite drop_app_length' by lia.
    rewrite (take_ge (drop 16 dst)) by (rewrite length_drop; lia).
    rewrite IH by (rewrite !length_drop; lia).
    rewrite take_app_length' by lia.
    rewrite Hout. simpl. rewrite length_drop, drop_drop.
    rewrite <- app_assoc.
    now replace (16 + (length src - 16)) with (length src) by lia.
Qed.

Lemma aesBlock_encrypt (c : AES.Block) (d s : list byte) :
  blockEncrypt (aesBlock c) d s
  = if decide (length d < 16) then None
    else out ← AES.Encrypt c s; Some (out ++ drop 16 d).
Proof. reflexivity. Qed.

Lemma aesBlock_decrypt (c : AES.Block) (d s : list byte) :
  blockDecrypt (aesBlock c) d s
  = if decide (length d < 16) then None
    else out ← AES.Decrypt c s; Some (out ++ drop 16 d).
Proof. reflexivity. Qed.

Lemma CryptBlocks_encrypt_ok (c : AES.Block) (m : nat) (dst src : list byte) :
  length src = 16 * m -> length src <= length dst ->
  ecbEncrypter_CryptBlocks (NewECBEncrypter (aesBlock c)) dst src
  = Some (ecb m (AES.Encrypt c) src ++ drop (length src) dst).
Proof.
  intros Hsrc Hdst. unfold ecbEncrypter_CryptBlocks, ecbEncrypter_BlockSize.
  cbn [encrypter_b blockSize aesBlock]. change AES.BlockSize with 16.
  cbv beta iota.
  assert (Hmod : length src mod 16 = 0)
    by (rewrite Hsrc, Nat.mul_comm; apply Nat.Div0.mod_mul).
  destruct (decide (length src mod 16 ≠ 0)) as [Hm|_]; [destruct Hm; exact Hmod|].
  destruct (decide (length dst < length src)); [lia|].
  apply (cryptLoop_ecb (AES.Encrypt c)); try assumption.
  - apply AESFacts.Encrypt_full.
  - apply aesBlock_encrypt.
Qed.

Lemma CryptBlocks_decrypt_ok (c : AES.Block) (m : nat) (dst src : list byte) :
  length src = 16 * m -> length src <= length dst ->
  ecbDecrypter_CryptBlocks (NewECBDecrypter (aesBlock c)) dst src
  = Some (ecb m (AES.Decrypt c) src ++ drop (length src) dst).
Proof.
  intros Hsrc Hdst. unfold ecbDecrypter_CryptBlocks, ecbDecrypter_BlockSize.
  cbn [decrypter_b blockSize aesBlock]. change AES.BlockSize with 16.
  cbv beta iota.
  assert (Hmod : length src mod 16 = 0)
    by (rewrite Hsrc, Nat.mul_comm; apply Nat.Div0.mod_mul).
  destruct (decide (length src mod 16 ≠ 0)) as [Hm|_]; [destruct Hm; exact Hmod|].
  destruct (decide (length dst < length src)); [lia|].
  apply (cryptLoop_ecb (AES.Decrypt c)); try assumption.
  - apply AESFacts.Decrypt_full.
  - apply aesBlock_decrypt.
Qed.

(** X17. With an AES block, and a destination that does not overlap the
    source, [ecbEncrypter.CryptBlocks] and [ecbDecrypter.CryptBlocks] panic
    exactly when the source is not a whole number of 16-byte blocks or the
    destination is shorter than the source.  Otherwise they overwrite the
    first [len(src)] bytes of the destination and leave the rest of it as it
    was. *)
Theorem CryptBlocks_spec (c : AES.Block) (dst src : list byte) :
  (ecbEncrypter_CryptBlocks (NewECBEncrypter (aesBlock c)) dst src = None
   ↔ length src mod 16 ≠ 0 ∨ length dst < length src)
  ∧ (ecbDecrypter_CryptBlocks (NewECBDecrypter (aesBlock c)) dst src = None
     ↔ length src mod 16 ≠ 0 ∨ length dst < length src)
  ∧ (∀ out,
       ecbEncrypter_CryptBlocks (NewECBEncrypter (aesBlock c)) dst src = Some out
       ∨ ecbDecrypter_CryptBlocks (NewECBDecrypter (aesBlock c)) dst src = Some out ->
       length out = length dst
       ∧ drop (length src) out = drop (length src) dst).
Proof.
  destruct (decide (length src mod 16 = 0)) as [Hmod|Hmod];
    [destruct (decide (length src <= length dst)) as [Hle|Hgt]|].
  - pose proof (Nat.div_mod_eq (length src) 16) as Hdiv.
    set (m := length src / 16) in Hdiv.
    assert (Hsrc : length src = 16 * m) by lia. clearbody m.
    rewrite (CryptBlocks_encrypt_ok c m dst src Hsrc Hle).
    rewrite (CryptBlocks_decrypt_ok c m dst src Hsrc Hle).
    split; [split; [discriminate | lia]|].
    split; [split; [discriminate | lia]|].
    intros out [[= <-]|[= <-]].
    + rewrite length_app, length_drop, ecb_Encrypt_length by assumption.
      split; [lia|]. now rewrite drop_app_length' by (rewrite ecb_Encrypt_length; lia).
    + rewrite length_app, length_drop, ecb_Decrypt_length by assumption.
      split; [lia|]. now rewrite drop_app_length' by (rewrite ecb_Decrypt_length; lia).
  - unfold ecbEncrypter_CryptBlocks, ecbDecrypter_CryptBlocks,
      ecbEncrypter_BlockSize, ecbDecrypter_BlockSize.
    cbn [encrypter_b decrypter_b blockSize aesBlock]. change AES.BlockSize with 16.
    cbv beta iota.
    destruct (decide (length src mod 16 ≠ 0)); [contradiction|].
    destruct (decide (length dst < length src)); [|lia].
    split; [split; auto|]. split; [split; auto|].
    intros out [H|H]; discriminate H.
  - unfold ecbEncrypter_CryptBlocks, ecbDecrypter_CryptBlocks,
      ecbEncrypter_BlockSize, ecbDecrypter_BlockSize.
    cbn [encrypter_b decrypter_b blockSize aesBlock]. change AES.BlockSize with 16.
    cbv beta iota.
    destruct (decide (length src mod 16 ≠ 0)); [|contradiction].
    split; [split; auto|]. split; [split; auto|].
    intros out [H|H]; discriminate H.
Qed.

Lemma CryptBlocks_spec_witness :
  ecbEncrypter_CryptBlocks
    (NewECBEncrypter (aesBlock (cipherOf (list_byte_of_string "key"))))
    (make 20) (pad16 (list_byte_of_string "test"))
  = Some (hexBytes "9e9ce44cd9df2b201f51947e03bccbe2" ++ make 4)
  ∧ length (hexBytes "9e9ce44cd9df2b201f51947e03bccbe2" ++ make 4) = length (make 20).
Proof.
  assert (H : ecbEncrypter_CryptBlocks
                (NewECBEncrypter (aesBlock (cipherOf (list_byte_of_string "key"))))
                (make 20) (pad16 (list_byte_of_string "test"))
              = Some (hexBytes "9e9ce44cd9df2b201f51947e03bccbe2" ++ make 4))
    by (vm_compute; reflexivity).
  split; [exact H|].
  exact (proj1 (proj2 (proj2 (CryptBlocks_spec _ _ _)) _ (or_introl H))).
Defined.

(** X18. [ecbDecrypter.CryptBlocks] undoes [ecbEncrypter.CryptBlocks] made
    from the same AES block: decrypting the [len(src)] bytes the encrypter
    wrote puts [src] at the front of the destination. *)
Theorem CryptBlocks_inverse (c : AES.Block) (dst dst' src : list byte) :
  length src mod 16 = 0 -> length src <= length dst -> length src <= length dst' ->
  ∃ ct,
    length ct = length src
    ∧ ecbEncrypter_CryptBlocks (NewECBEncrypter (aesBlock c)) dst src
      = Some (ct ++ drop (length src) dst)
    ∧ ecbDecrypter_CryptBlocks (NewECBDecrypter (aesBlock c)) dst' ct
      = Some (src ++ drop (length src) dst').
Proof.
  intros Hmod Hd Hd'.
  pose proof (Nat.div_mod_eq (length src) 16) as Hdiv.
  assert (Hsrc : length src = 16 * (length src / 16)) by lia.
  exists (ecb (length src / 16) (AES.Encrypt c) src).
  assert (Hct : length (ecb (length src / 16) (AES.Encrypt c) src) = length src).
  { rewrite ecb_Encrypt_length; lia. }
  split; [exact Hct|]. split; [now apply CryptBlocks_encrypt_ok|].
  rewrite (CryptBlocks_decrypt_ok c (length src / 16)) by lia.
  now rewrite ecb_Decrypt_Encrypt, Hct by assumption.
Qed.

Lemma CryptBlocks_inverse_witness :
  length (pad16 (list_byte_of_string "test")) mod 16 = 0
  ∧ length (pad16 (list_byte_of_string "test")) <= length (make 16)
  ∧ ∃ ct,
      ecbEncrypter_CryptBlocks
        (NewECBEncrypter (aesBlock (cipherOf (list_byte_of_string "key"))))
        (make 16) (pad16 (list_byte_of_string "test"))
      = Some (ct ++ drop 16 (make 16))
      ∧ ecbDecrypter_CryptBlocks
          (NewECBDecrypter (aesBlock (cipherOf (list_byte_of_string "key"))))
          (make 16) ct
        = Some (pad16 (list_byte_of_string "test") ++ drop 16 (make 16)).
Proof.
  split; [reflexivity|]. split; [vm_compute; lia|].
  destruct (CryptBlocks_inverse (cipherOf (list_byte_of_string "key"))
              (make 16) (make 16) (pad16 (list_byte_of_string "test")))
    as (ct & _ & H1 & H2); [reflexivity | vm_compute; lia | vm_compute; lia |].
  exists ct. split; [exact H1 | exact H2].
Defined.

(** X19. The loops of [Encrypt] and [Decrypt] are the package's own ECB
    modes: on non-empty arguments [Encrypt] returns what
    [ecbEncrypter.CryptBlocks], made from the cipher of the folded key,
    writes into a fresh buffer for the padded plaintext, and on a ciphertext
    of whole blocks [Decrypt] unpads what [ecbDecrypter.CryptBlocks]
    writes. *)
Theorem Encrypt_is_CryptBlocks (data key : list byte) :
  data ≠ [] -> key ≠ [] ->
  (∃ block padded c,
     AES.NewCipher (aesKey key) = Ok block
     ∧ pkcs7Pad data (Z.of_nat BlockSize) = Some padded
     ∧ ecbEncrypter_CryptBlocks (NewECBEncrypter (aesBlock block))
         (make (length padded)) padded = Some c
     ∧ Encrypt data key = Ok c)
  ∧ (length data mod 16 = 0 ->
     ∃ block plain,
       AES.NewCipher (aesKey key) = Ok block
       ∧ ecbDecrypter_CryptBlocks (NewECBDecrypter (aesBlock block))
           (make (length data)) data = Some plain
       ∧ Decrypt data key
         = match pkcs7Unpad plain with
           | Err err => Err (ErrorfW "failed to remove padding: %w" err)
           | other => other
           end).
Proof.
  intros Hd Hk. apply length_nonzero in Hd as Hd', Hk as Hk'. split.
  - exists (cipherOf key), (pad16 data). eexists.
    split; [apply NewCipher_aesKey|].
    split; [apply pkcs7Pad_16|].
    split; [|now apply Encrypt_Ok].
    rewrite (CryptBlocks_encrypt_ok _ (length data / 16 + 1));
      [| apply pad16_length | unfold make; rewrite length_replicate; lia].
    rewrite drop_ge by (unfold make; rewrite length_replicate; lia).
    now rewrite app_nil_r.
  - intros Hmod. exists (cipherOf key).
    pose proof (Nat.div_mod_eq (length data) 16) as Hdiv.
    eexists. split; [apply NewCipher_aesKey|]. split.
    + rewrite (CryptBlocks_decrypt_ok _ (length data / 16));
        [| lia | unfold make; rewrite length_replicate; lia].
      rewrite drop_ge by (unfold make; rewrite length_replicate; lia).
      rewrite app_nil_r. reflexivity.
    + rewrite Decrypt_unpad by assumption.
      destruct (pkcs7Unpad _); reflexivity.
Qed.

Lemma Encrypt_is_CryptBlocks_witness :
  list_byte_of_string "test" ≠ []
  ∧ list_byte_of_string "key" ≠ []
  ∧ ∃ block padded c,
      AES.NewCipher (aesKey (list_byte_of_string "key")) = Ok block
      ∧ pkcs7Pad (list_byte_of_string "test") (Z.of_nat BlockSize) = Some padded
      ∧ ecbEncrypter_CryptBlocks (NewECBEncrypter (aesBlock block))
          (make (length padded)) padded = Some c
      ∧ Encrypt (list_byte_of_string "test") (list_byte_of_string "key") = Ok c.
Proof.
  split; [discriminate|]. split; [discriminate|].
  apply (Encrypt_is_CryptBlocks (list_byte_of_string "test")
           (list_byte_of_string "key")); discriminate.
Defined.

End BlockModes.
